(** * golang-chat: the connection hub of [main.go]

    A shallow embedding of the chat relay: the buffered Go channels that
    serve as outbound queues, the [Hub] arbitration loop ([Hub.run]), the two
    pumps of a [Client] ([readPump], [writePump]) and the admission glue
    ([serveWS]).

    Pointers [*Client] are modelled as addresses into a heap of client
    objects; the three unbuffered channels of the hub are rendezvous points,
    so a request sent on one of them is handled as one event of the loop.
    A case of the [select] in [Hub.run] runs to completion before the loop
    receives again, so each case is one step; the turns of the write pumps,
    which only take from the front of a queue, are interleaved between
    these steps.  [serveWS] is the only sender on [register] and sends a
    client it has just built, so the heap holds exactly the clients that
    were handed to the hub. *)

From Stdlib Require Import ZArith String DecimalString.
From stdpp Require Import gmap list fin_maps.

(* [set_solver] clears hypotheses that may be absent. *)
#[local] Set Warnings "-clear-no-such-hyp".

Local Open Scope Z_scope.

(* ===================================================================== *)
(** ** Outcomes of a Go operation *)
(* ===================================================================== *)

(** A channel operation either completes, cannot proceed now (the goroutine
    would park), or panics (send on a closed channel, close of a closed
    channel). *)
Inductive outcome (A : Type) : Type :=
| Done (a : A)
| Blocks
| Panics.
Arguments Done {A} a.
Arguments Blocks {A}.
Arguments Panics {A}.

#[global] Instance outcome_ret : MRet outcome := fun A a => Done a.

#[global] Instance outcome_bind : MBind outcome := fun A B f x =>
  match x with
  | Done a => f a
  | Blocks => Blocks
  | Panics => Panics
  end.

(* ===================================================================== *)
(** ** Data model *)
(* ===================================================================== *)

(** [time.Time], as nanoseconds since the Unix epoch. *)
Definition Time := Z.

(** [Time.Unix]: whole seconds since the epoch (rounded down). *)
Definition Unix (t : Time) : Z := t / 1000000000.

(** [type Message struct { Username; Content; Timestamp }] *)
Record Message := mkMessage {
  Username : string;
  Content : string;
  Timestamp : Time
}.

(** [chan Message]: the buffered elements in arrival order, the capacity
    given to [make], and whether [close] was called. *)
Record chan := mkChan {
  buf : list Message;
  capacity : nat;
  closed : bool
}.

(** What was written on a websocket connection. *)
Inductive Frame :=
| JSONFrame (m : Message)
| CloseFrame.

(** [*websocket.Conn], seen from the server: the write calls made on it so
    far, each with whether it succeeded, and whether [Close] was called. *)
Record Conn := mkConn {
  calls : list (Frame * bool);
  conn_closed : bool
}.

(** [type Client struct { conn; username; send; hub }]; there is one hub,
    so the back-reference carries no information. *)
Record Client := mkClient {
  conn : Conn;
  username : string;
  send : chan
}.

(** Everything the goroutines share: the hub's map [h.clients], the heap
    of client objects its keys point into (a [*Client] is an address), and
    which pumps are still running.  The hub's channels [broadcast],
    [register] and [unregister] are unbuffered and hold no state. *)
Record World := mkWorld {
  clients : gmap nat bool;
  heap : gmap nat Client;
  writers : gset nat;
  readers : gset nat
}.

(* ===================================================================== *)
(** ** Channels *)
(* ===================================================================== *)

Module Chan.

(** [make(chan Message, n)] *)
Definition make (n : nat) : chan :=
  {| buf := []; capacity := n; closed := false |}.

Definition full (ch : chan) : bool :=
  (capacity ch <=? length (buf ch))%nat.

(** [ch <- m] *)
Definition send (m : Message) (ch : chan) : outcome chan :=
  if closed ch then Panics
  else if full ch then Blocks
  else Done {| buf := buf ch ++ [m]; capacity := capacity ch;
               closed := false |}.

(** [close(ch)] *)
Definition close (ch : chan) : outcome chan :=
  if closed ch then Panics
  else Done {| buf := buf ch; capacity := capacity ch; closed := true |}.

(** [m, ok := <-ch]: buffered elements are still delivered after a
    close; [ok] is false only on a closed, drained channel. *)
Definition recv (ch : chan) : outcome (option Message * chan) :=
  match buf ch with
  | m :: rest =>
      Done (Some m, {| buf := rest; capacity := capacity ch;
                       closed := closed ch |})
  | [] => if closed ch then Done (None, ch) else Blocks
  end.

End Chan.

(* ===================================================================== *)
(** ** The hub: [newHub] and the three cases of [Hub.run] *)
(* ===================================================================== *)

Definition newHub : World :=
  {| clients := ∅; heap := ∅; writers := ∅; readers := ∅ |}.

Definition set_clients (cs : gmap nat bool) (w : World) : World :=
  {| clients := cs; heap := heap w; writers := writers w;
     readers := readers w |}.

Definition set_client (p : nat) (c : Client) (w : World) : World :=
  {| clients := clients w; heap := <[p := c]> (heap w);
     writers := writers w; readers := readers w |}.

Definition set_send (ch : chan) (c : Client) : Client :=
  {| conn := conn c; username := username c; send := ch |}.

Definition set_conn (k : Conn) (c : Client) : Client :=
  {| conn := k; username := username c; send := send c |}.

(** Dereferencing [client]; an address outside the heap is a nil
    dereference. *)
Definition deref (p : nat) (w : World) : outcome Client :=
  match heap w !! p with
  | Some c => Done c
  | None => Panics
  end.

(** [case client := <-h.register: h.clients[client] = true] *)
Definition hub_register (p : nat) (w : World) : World :=
  set_clients (<[p := true]> (clients w)) w.

(** [case client := <-h.unregister:
       if _, ok := h.clients[client]; ok {
         delete(h.clients, client); close(client.send) }] *)
Definition hub_unregister (p : nat) (w : World) : outcome World :=
  match clients w !! p with
  | Some _ =>
      let w1 := set_clients (delete p (clients w)) w in
      c ← deref p w1;
      ch ← Chan.close (send c);
      mret (set_client p (set_send ch c) w1)
  | None => mret w
  end.

(** The body of [for client := range h.clients]:
      [select { case client.send <- message: default:
                close(client.send); delete(h.clients, client) }] *)
Definition fan1 (m : Message) (p : nat) (w : World) : outcome World :=
  c ← deref p w;
  match Chan.send m (send c) with
  | Done ch => mret (set_client p (set_send ch c) w)
  | Blocks =>
      ch ← Chan.close (send c);
      let w1 := set_client p (set_send ch c) w in
      mret (set_clients (delete p (clients w1)) w1)
  | Panics => Panics
  end.

(** The [range] loop over the keys in the order [order]; a key deleted
    before it is reached is not produced. *)
Fixpoint fanout (m : Message) (order : list nat) (w : World)
  : outcome World :=
  match order with
  | [] => mret w
  | p :: rest =>
      match clients w !! p with
      | Some _ => w1 ← fan1 m p w; fanout m rest w1
      | None => fanout m rest w
      end
  end.

(** One iteration order of the map; Go leaves the order unspecified, and
    [fanout_Permutation] below shows that it does not matter. *)
Definition range_clients (w : World) : list nat :=
  (map_to_list (clients w)).*1.

(** [case message := <-h.broadcast: for client := range h.clients {...}] *)
Definition hub_broadcast (m : Message) (w : World) : outcome World :=
  fanout m (range_clients w) w.

(** A request received on one of the hub's three channels. *)
Inductive Request :=
| Register (p : nat)
| Unregister (p : nat)
| Broadcast (m : Message).

(** One turn of the [for { select {...} }] loop of [Hub.run]. *)
Definition hub_step (r : Request) (w : World) : outcome World :=
  match r with
  | Register p => mret (hub_register p w)
  | Unregister p => hub_unregister p w
  | Broadcast m => hub_broadcast m w
  end.

(* ===================================================================== *)
(** ** The pumps *)
(* ===================================================================== *)

(** One turn of the loop of [readPump]: [ReadJSON] returned [r] (the
    decoded wire message, or an error) at time [now].  The result is the
    request sent to the hub: the stamped message on [h.broadcast], or, from
    the deferred function, the client itself on [h.unregister]. *)
Definition readPump (p : nat) (c : Client) (r : option Message)
    (now : Time) : Request :=
  match r with
  | None => Unregister p
  | Some msg =>
      Broadcast {| Username := username c; Content := Content msg;
                   Timestamp := now |}
  end.

(** [c.conn.Close()] *)
Definition conn_close (k : Conn) : Conn :=
  {| calls := calls k; conn_closed := true |}.

(** A write call on the connection; [ok] says whether it succeeded. *)
Definition conn_write (f : Frame) (ok : bool) (k : Conn) : Conn :=
  {| calls := calls k ++ [(f, ok)]; conn_closed := conn_closed k |}.

Definition stop_writer (p : nat) (w : World) : World :=
  {| clients := clients w; heap := heap w;
     writers := writers w ∖ {[p]}; readers := readers w |}.

Definition stop_reader (p : nat) (w : World) : World :=
  {| clients := clients w; heap := heap w;
     writers := writers w; readers := readers w ∖ {[p]} |}.

(** One turn of the loop of [writePump] of client [p]; [ok] is the result
    of the write on the connection.  The second component is the list of
    requests sent to the hub, which is always empty: [writePump] never
    touches the hub's channels. *)
Definition writePump (p : nat) (ok : bool) (w : World)
  : outcome (World * list Request) :=
  c ← deref p w;
  '(r, ch) ← Chan.recv (send c);
  let c1 := set_send ch c in
  match r with
  | None =>
      (* [!ok]: write the close message, return, deferred [conn.Close] *)
      let k := conn_close (conn_write CloseFrame ok (conn c1)) in
      mret (stop_writer p (set_client p (set_conn k c1) w), [])
  | Some message =>
      let k := conn_write (JSONFrame message) ok (conn c1) in
      if ok then mret (set_client p (set_conn k c1) w, [])
      else mret (stop_writer p (set_client p (set_conn (conn_close k) c1) w),
                 [])
  end.

(* ===================================================================== *)
(** ** Admission: [serveWS] *)
(* ===================================================================== *)

(** [fmt.Sprintf("User%d", time.Now().Unix()%1000)]; [%] on integers
    truncates towards zero. *)
Definition fallback (now : Time) : string :=
  ("User" ++ NilZero.string_of_int (Z.to_int (Z.rem (Unix now) 1000)))%string.

(** [serveWS], up to and including the start of the two pumps.
    [upgrade_ok] is the result of [upgrader.Upgrade], [query] the value of
    [r.URL.Query().Get("username")].  [&Client{...}] allocates a fresh
    address; the send on the unbuffered [register] channel returns once the
    hub has taken the client. *)
Definition serveWS (upgrade_ok : bool) (query : string) (now : Time)
    (w : World) : World :=
  if upgrade_ok then
    let username := if String.eqb query "" then fallback now else query in
    let p := fresh (dom (heap w)) in
    let client := {| conn := {| calls := []; conn_closed := false |};
                     username := username;
                     send := Chan.make 256 |} in
    let w1 := hub_register p (set_client p client w) in
    {| clients := clients w1; heap := heap w1;
       writers := writers w1 ∪ {[p]}; readers := readers w1 ∪ {[p]} |}
  else w.

(* ===================================================================== *)
(** ** The whole server as a transition system *)
(* ===================================================================== *)

(** What can happen: a request arrives on [/ws]; [ReadJSON] returns in the
    [readPump] of [p]; the [writePump] of [p] takes a turn. *)
Inductive Event :=
| Serve (upgrade_ok : bool) (query : string) (now : Time)
| Read (p : nat) (r : option Message) (now : Time)
| Write (p : nat) (ok : bool).

(** [Blocks] means that the event cannot happen in [w]: the goroutine has
    returned, or it is parked on an empty queue. *)
Definition step (e : Event) (w : World) : outcome World :=
  match e with
  | Serve ok q now => mret (serveWS ok q now w)
  | Read p r now =>
      if decide (p ∈ readers w) then
        c ← deref p w;
        w1 ← hub_step (readPump p c r now) w;
        match r with
        | Some _ => mret w1
        | None =>
            c1 ← deref p w1;
            mret (stop_reader p (set_client p (set_conn (conn_close (conn c1)) c1) w1))
        end
      else Blocks
  | Write p ok =>
      if decide (p ∈ writers w) then
        '(w1, _) ← writePump p ok w; mret w1
      else Blocks
  end.

Fixpoint run (es : list Event) (w : World) : outcome World :=
  match es with
  | [] => mret w
  | e :: rest => w1 ← step e w; run rest w1
  end.

(* ===================================================================== *)
(** ** Well-formed worlds *)
(* ===================================================================== *)

(** The outbound queue of [p], when [p] is allocated. *)
Definition queue (p : nat) (w : World) : option chan :=
  send <$> heap w !! p.

Definition member (p : nat) (w : World) : Prop := is_Some (clients w !! p).

Definition is_open (p : nat) (w : World) : Prop :=
  ∃ c, heap w !! p = Some c ∧ closed (send c) = false.

(** The membership invariant: the keys of [h.clients] are allocated, the
    values stored are all [true], and an allocated client is a key exactly
    when its [send] channel is open. *)
Record inv (w : World) : Prop := mkInv {
  inv_alloc : ∀ p, member p w → is_Some (heap w !! p);
  inv_true : ∀ p b, clients w !! p = Some b → b = true;
  inv_open : ∀ p c, heap w !! p = Some c →
               (member p w ↔ closed (send c) = false)
}.

(** The message carried by a frame. *)
Definition frame_message (f : Frame) : option Message :=
  match f with
  | JSONFrame m => Some m
  | CloseFrame => None
  end.

(** Everything a turn of the write pump has taken from the queue of [c], in
    the order of its [WriteJSON] calls. *)
Definition taken (c : Client) : list Message :=
  omap (λ x, frame_message (fst x)) (calls (conn c)).

(** The messages that were ever put on [c.send], in order: those the pump
    has taken, followed by those still queued. *)
Definition stream (c : Client) : list Message := taken c ++ buf (send c).



(** The queue after a successful send, and after a close. *)
Definition pushed (m : Message) (ch : chan) : chan :=
  {| buf := buf ch ++ [m]; capacity := capacity ch; closed := false |}.

Definition shut (ch : chan) : chan :=
  {| buf := buf ch; capacity := capacity ch; closed := true |}.

(** The loop body with its guard: a key that is no longer in the map is
    skipped. *)
Definition fan_body (m : Message) (p : nat) (w : World) : outcome World :=
  match clients w !! p with
  | Some _ => fan1 m p w
  | None => mret w
  end.

(** The four cases of one turn of the loop, by the state of the target. *)
Variant fan1_case (m : Message) (p : nat) (w : World) : outcome World → Prop :=
| Fan1Nil : heap w !! p = None → fan1_case m p w Panics
| Fan1Closed c :
    heap w !! p = Some c → closed (send c) = true → fan1_case m p w Panics
| Fan1Room c :
    heap w !! p = Some c → closed (send c) = false →
    Chan.full (send c) = false →
    fan1_case m p w
      (Done (set_client p (set_send (pushed m (send c)) c) w))
| Fan1Full c :
    heap w !! p = Some c → closed (send c) = false →
    Chan.full (send c) = true →
    fan1_case m p w
      (Done (set_clients (delete p (clients w))
               (set_client p (set_send (shut (send c)) c) w))).

(** The message that event [e] hands to the hub for broadcast in [w], if
    any: what [readPump] sends on [h.broadcast]. *)
Definition announced (e : Event) (w : World) : list Message :=
  match e with
  | Read q (Some msg) now =>
      match heap w !! q with
      | Some c =>
          match readPump q c (Some msg) now with
          | Broadcast m => [m]
          | _ => []
          end
      | None => []
      end
  | _ => []
  end.

(** All messages handed to the hub along a run, in the order in which the
    loop receives them. *)
Fixpoint announcements (es : list Event) (w : World) : list Message :=
  match es with
  | [] => []
  | e :: rest =>
      announced e w ++
      match step e w with
      | Done w1 => announcements rest w1
      | _ => []
      end
  end.

(** A running pump owns an allocated client. *)
Definition pumps_alloc (w : World) : Prop :=
  ∀ p, p ∈ writers w ∪ readers w → is_Some (heap w !! p).

(** The members of the world reached by a run, when it completes. *)
Definition run_members (es : list Event) (w : World) : option (list nat) :=
  match run es w with
  | Done w' => Some (range_clients w')
  | _ => None
  end.

(** The queue of [p] (its elements and whether it is closed) in the world
    reached by a run. *)
Definition run_queue (es : list Event) (w : World) (p : nat)
  : option (list Message * bool) :=
  match run es w with
  | Done w' => (λ c, (buf (send c), closed (send c))) <$> heap w' !! p
  | _ => None
  end.

(** Example worlds: Alice and Bob have joined, in this order, and hold the
    addresses 0 and 1. *)
Definition alice_bob : World :=
  serveWS true "Bob" 2000000000 (serveWS true "Alice" 1000000000 newHub).

Definition hi : Message :=
  {| Username := "Mallory"; Content := "hi"; Timestamp := 0 |}.

(** Bob talks [n] times and his write pump delivers each message to him
    at once; nobody else's pump takes a turn. *)
Definition chatter (n : nat) : list Event :=
  concat (replicate n [Read 1%nat (Some hi) 3000000000; Write 1%nat true]).

(** Alice and Bob have joined and Bob has talked 256 times while Alice's
    write pump was stalled: her queue is full. *)
Definition saturated : World :=
  match run (chatter 256) alice_bob with
  | Done w => w
  | _ => alice_bob
  end.

(** The only changes a step makes to the map. *)
Variant mutation (e : Event) (w w' : World) (p : nat) : Prop :=
| Inserted q now :
    e = Serve true q now → p = fresh (dom (heap w)) →
    clients w !! p = None → clients w' !! p = Some true →
    mutation e w w' p
| Removed now :
    e = Read p None now → member p w → clients w' !! p = None →
    mutation e w w' p
| Evicted q msg now c :
    e = Read q (Some msg) now → member p w → heap w !! p = Some c →
    Chan.full (send c) = true → clients w' !! p = None →
    mutation e w w' p.

(** Is [e] the failure of a read in the read pump of [p]? *)
Definition is_read_failure (p : nat) (e : Event) : bool :=
  match e with
  | Read q None _ => bool_decide (q = p)
  | _ => false
  end.

(** Is [e] a decoded submission, that is, a broadcast? *)
Definition is_submission (e : Event) : bool :=
  match e with
  | Read _ (Some _) _ => true
  | _ => false
  end.

(** Bob has talked once; the message is in Alice's queue, and Bob's pump
    has written his copy. *)
Definition one_sent : World :=
  match run (chatter 1) alice_bob with
  | Done w => w
  | _ => alice_bob
  end.

(** Then the write of that message to Alice fails. *)
Definition write_failed : World :=
  match writePump 0%nat false one_sent with
  | Done (w, _) => w
  | _ => one_sent
  end.

(** Then Bob talks 257 times; neither read pump fails. *)
Definition after_write_failure : list Event :=
  chatter 256 ++ [Read 1%nat (Some hi) 4000000000].

Definition evicted : World :=
  match run after_write_failure write_failed with
  | Done w => w
  | _ => write_failed
  end.

(** Bob's client object right after admission, and Alice's once Bob's
    first message is in her queue. *)
Definition bob : Client :=
  {| conn := {| calls := []; conn_closed := false |};
     username := "Bob";
     send := Chan.make 256 |}.

Definition alice_one : Client :=
  {| conn := {| calls := []; conn_closed := false |};
     username := "Alice";
     send := {| buf := [{| Username := "Bob"; Content := "hi";
                           Timestamp := 3000000000 |}];
                capacity := 256; closed := false |} |}.

(** Alice talks, Bob's pump writes her message, Bob answers, Alice talks
    again. *)
Definition conversation : World :=
  match run (Read 0%nat (Some hi) 5000000000
             :: [Write 1%nat true; Read 1%nat (Some hi) 6000000000]
             ++ [Read 0%nat (Some hi) 7000000000]) alice_bob with
  | Done w => w
  | _ => alice_bob
  end.

(** What one step can do to a client [c] that is allocated before it,
    giving [c']: nothing; a broadcast appends the stamped message to its
    queue, or finds the queue full and closes it; its read pump fails, has
    the hub close the queue and closes the connection; its write pump takes
    the first queued message and writes it, or finds the queue closed and
    drained and writes the close message. *)
Variant client_step (e : Event) (w w' : World) (p : nat) (c c' : Client)
  : Prop :=
| CsSame :
    send c' = send c → conn c' = conn c →
    (p ∈ writers w' ↔ p ∈ writers w) →
    client_step e w w' p c c'
| CsPush q msg now cq :
    e = Read q (Some msg) now → heap w !! q = Some cq → member p w →
    closed (send c) = false → Chan.full (send c) = false →
    send c' = pushed {| Username := username cq; Content := Content msg;
                        Timestamp := now |} (send c) →
    conn c' = conn c → (p ∈ writers w' ↔ p ∈ writers w) →
    client_step e w w' p c c'
| CsEvict q msg now :
    e = Read q (Some msg) now → member p w →
    closed (send c) = false → Chan.full (send c) = true →
    send c' = shut (send c) → conn c' = conn c →
    (p ∈ writers w' ↔ p ∈ writers w) →
    client_step e w w' p c c'
| CsRemove now :
    e = Read p None now →
    send c' = shut (send c) → conn c' = conn_close (conn c) →
    (p ∈ writers w' ↔ p ∈ writers w) → p ∉ readers w' →
    client_step e w w' p c c'
| CsWrite ok m rest :
    e = Write p ok → p ∈ writers w → buf (send c) = m :: rest →
    send c' = {| buf := rest; capacity := capacity (send c);
                 closed := closed (send c) |} →
    calls (conn c') = calls (conn c) ++ [(JSONFrame m, ok)] →
    conn_closed (conn c') = (if ok then conn_closed (conn c) else true) →
    (p ∈ writers w' ↔ ok = true) →
    client_step e w w' p c c'
| CsCloseFrame ok :
    e = Write p ok → p ∈ writers w →
    buf (send c) = [] → closed (send c) = true →
    send c' = send c →
    calls (conn c') = calls (conn c) ++ [(CloseFrame, ok)] →
    conn_closed (conn c') = true → p ∉ writers w' →
    client_step e w w' p c c'.

(** The backlog of every client is bounded by the capacity [serveWS] gave
    its queue. *)
Definition bounded (w : World) : Prop :=
  ∀ p c, heap w !! p = Some c →
    capacity (send c) = 256%nat ∧ (length (buf (send c)) ≤ 256)%nat.

(** A write call that succeeded and carried a message. *)
Definition good_call (x : Frame * bool) : Prop :=
  snd x = true ∧ fst x ≠ CloseFrame.

(** The discipline of the write calls on a connection: while the write
    pump runs, all its calls were successful message writes; once it has
    returned, the connection is closed and exactly the last call was either
    a failed message write or the close message, the latter only on a
    closed queue. *)
Definition wire_ok (w : World) : Prop :=
  ∀ p c, heap w !! p = Some c →
    (p ∈ writers w → Forall good_call (calls (conn c))) ∧
    (p ∉ writers w →
       conn_closed (conn c) = true ∧
       ∃ l x, calls (conn c) = l ++ [x] ∧ Forall good_call l ∧
         (fst x = CloseFrame → closed (send c) = true) ∧
         (fst x ≠ CloseFrame → snd x = false)).

(** Every client has a name, and every message that ever entered a queue
    carries the name of an allocated client. *)
Definition named (w : World) : Prop :=
  ∀ p c, heap w !! p = Some c → username c ≠ ""%string.

Definition authentic (w : World) : Prop :=
  ∀ p c m, heap w !! p = Some c → m ∈ stream c →
    ∃ q cq, heap w !! q = Some cq ∧ Username m = username cq.

(** Is [e] a turn of the write pump of [p]? *)
Definition is_write (p : nat) (e : Event) : bool :=
  match e with
  | Write q _ => bool_decide (q = p)
  | _ => false
  end.

(** Is [e] a turn of the read pump of [p]? *)
Definition is_read (p : nat) (e : Event) : bool :=
  match e with
  | Read q _ _ => bool_decide (q = p)
  | _ => false
  end.

(** Alice's read fails: her read pump has the hub remove her. *)
Definition alice_unregistered : World :=
  match step (Read 0%nat None 3000000000) alice_bob with
  | Done w => w
  | _ => alice_bob
  end.

(** Then her write pump finds the queue closed, writes the close message
    and returns. *)
Definition alice_closed : World :=
  match step (Write 0%nat true) alice_unregistered with
  | Done w => w
  | _ => alice_unregistered
  end.

(** Then Bob talks. *)
Definition after_alice_left : World :=
  match step (Read 1%nat (Some hi) 4000000000) alice_closed with
  | Done w => w
  | _ => alice_closed
  end.

(** After that conversation Bob's read fails, the hub removes him, and his
    write pump takes three more turns. *)
Definition bob_leaves : list Event :=
  [Read 1%nat None 8000000000; Write 1%nat true; Write 1%nat true;
   Write 1%nat true].

Definition conversation_end : World :=
  match run bob_leaves conversation with
  | Done w => w
  | _ => conversation
  end.

(* ===================================================================== *)
(** ** The fan-out loop *)
(* ===================================================================== *)

Lemma outcome_bind_Done {A B} (x : outcome A) (f : A → outcome B) b :
  x ≫= f = Done b ↔ ∃ a, x = Done a ∧ f a = Done b.
Proof.
  destruct x; simpl; split; try (intros (? & ? & ?)); try discriminate; eauto.
  congruence.
Qed.

Lemma fan1_room m p w c :
  heap w !! p = Some c → closed (send c) = false →
  Chan.full (send c) = false →
  fan1 m p w = Done (set_client p (set_send (pushed m (send c)) c) w).
Proof.
  intros Hc Ho Hf. unfold fan1, deref, Chan.send. rewrite Hc. simpl.
  by rewrite Ho, Hf.
Qed.

Lemma fan1_full m p w c :
  heap w !! p = Some c → closed (send c) = false →
  Chan.full (send c) = true →
  fan1 m p w =
    Done (set_clients (delete p (clients w))
            (set_client p (set_send (shut (send c)) c) w)).
Proof.
  intros Hc Ho Hf. unfold fan1, deref, Chan.send, Chan.close. rewrite Hc.
  simpl. by rewrite Ho, Hf.
Qed.

Lemma fan1_closed m p w c :
  heap w !! p = Some c → closed (send c) = true → fan1 m p w = Panics.
Proof.
  intros Hc Ho. unfold fan1, deref, Chan.send. rewrite Hc. simpl.
  by rewrite Ho.
Qed.

Lemma fan1_nil m p w : heap w !! p = None → fan1 m p w = Panics.
Proof. intros Hc. unfold fan1, deref. by rewrite Hc. Qed.

Lemma fan1_cases m p w : fan1_case m p w (fan1 m p w).
Proof.
  destruct (heap w !! p) as [c|] eqn:Hc.
  - destruct (closed (send c)) eqn:Ho.
    + rewrite (fan1_closed m p w c) by done. by eapply Fan1Closed.
    + destruct (Chan.full (send c)) eqn:Hf.
      * rewrite (fan1_full m p w c) by done. by eapply Fan1Full.
      * rewrite (fan1_room m p w c) by done. by eapply Fan1Room.
  - rewrite fan1_nil by done. by apply Fan1Nil.
Qed.

Lemma fanout_cons m p rest w :
  fanout m (p :: rest) w = fan_body m p w ≫= fanout m rest.
Proof. simpl. unfold fan_body. by destruct (clients w !! p). Qed.

Lemma fanout_app m l1 l2 w :
  fanout m (l1 ++ l2) w = fanout m l1 w ≫= fanout m l2.
Proof.
  revert w. induction l1 as [|p l1 IH]; intros w; [done|].
  rewrite <- app_comm_cons, !fanout_cons.
  destruct (fan_body m p w); simpl; [apply IH|done..].
Qed.

Lemma fan_body_comm m p q w :
  fan_body m p w ≫= fan_body m q = fan_body m q w ≫= fan_body m p.
Proof.
  destruct (decide (p = q)) as [->|Hne]; [done|].
  unfold fan_body.
  destruct (clients w !! p) as [bp|] eqn:Hp, (clients w !! q) as [bq|] eqn:Hq;
    simpl; rewrite ?Hp, ?Hq; try done.
  - destruct (fan1_cases m p w) as [Hcp|cp Hcp Hop|cp Hcp Hop Hfp|cp Hcp Hop Hfp];
      destruct (fan1_cases m q w) as [Hcq|cq Hcq Hoq|cq Hcq Hoq Hfq|cq Hcq Hoq Hfq];
      simpl; rewrite ?Hp, ?Hq, ?lookup_delete_ne, ?Hp, ?Hq by done; try done.
    all: try (rewrite fan1_nil by (simpl; by rewrite lookup_insert_ne); done).
    all: try (erewrite fan1_closed by (simpl; try rewrite lookup_insert_ne by done; eauto); done).
    all: repeat first
      [ erewrite fan1_room by (simpl; try rewrite lookup_insert_ne by done; eauto)
      | erewrite fan1_full by (simpl; try rewrite lookup_insert_ne by done; eauto) ].
    all: unfold set_client, set_clients; simpl; f_equal; f_equal;
      try apply insert_insert_ne; try apply delete_delete; done.
  - destruct (fan1_cases m p w); simpl; rewrite ?Hq, ?lookup_delete_ne, ?Hq by done; done.
  - destruct (fan1_cases m q w); simpl; rewrite ?Hp, ?lookup_delete_ne, ?Hp by done; done.
Qed.

Lemma outcome_bind_assoc {A B C} (x : outcome A) (f : A → outcome B)
    (g : B → outcome C) :
  (x ≫= f) ≫= g = x ≫= (λ a, f a ≫= g).
Proof. by destruct x. Qed.

(** Go does not fix the order in which [range] visits the keys of a map.
    The outcome of the loop, a panic included, is the same for all of
    them. *)
Lemma fanout_Permutation m l1 l2 w :
  l1 ≡ₚ l2 → fanout m l1 w = fanout m l2 w.
Proof.
  intros Hp. revert w.
  induction Hp as [|x l l' _ IH|x y l|l l' l'' _ IH1 _ IH2]; intros w.
  - done.
  - rewrite !fanout_cons. destruct (fan_body m x w); simpl; auto.
  - rewrite !fanout_cons.
    transitivity ((fan_body m y w ≫= fan_body m x) ≫= fanout m l).
    + rewrite outcome_bind_assoc. destruct (fan_body m y w); [|done..].
      apply fanout_cons.
    + rewrite fan_body_comm, outcome_bind_assoc.
      destruct (fan_body m x w); [|done..]. symmetry. apply fanout_cons.
  - by rewrite IH1.
Qed.

Lemma range_clients_NoDup w : NoDup (range_clients w).
Proof. apply NoDup_fst_map_to_list. Qed.

Lemma elem_of_range_clients p w : p ∈ range_clients w ↔ member p w.
Proof.
  unfold range_clients, member. rewrite list_elem_of_fmap. split.
  - intros ([q b] & -> & H%elem_of_map_to_list). by exists b.
  - intros [b H]. exists (p, b). split; [done|]. by apply elem_of_map_to_list.
Qed.


(** What the loop does to each client, when every member it visits has an
    open queue: it does not panic; a visited member with room gets the
    message at the back of its queue; a visited member whose queue is full
    has it closed and leaves the map; nothing else changes. *)
Lemma fanout_spec m order w :
  NoDup order →
  (∀ p, p ∈ order → member p w → is_open p w) →
  ∃ w', fanout m order w = Done w' ∧
    writers w' = writers w ∧ readers w' = readers w ∧
    (∀ p c, p ∈ order → member p w → heap w !! p = Some c →
       Chan.full (send c) = false →
       clients w' !! p = clients w !! p ∧
       heap w' !! p = Some (set_send (pushed m (send c)) c)) ∧
    (∀ p c, p ∈ order → member p w → heap w !! p = Some c →
       Chan.full (send c) = true →
       clients w' !! p = None ∧
       heap w' !! p = Some (set_send (shut (send c)) c)) ∧
    (∀ p, ¬ (p ∈ order ∧ member p w) →
       clients w' !! p = clients w !! p ∧ heap w' !! p = heap w !! p).
Proof.
  intros Hnd. revert w.
  induction Hnd as [|p0 rest Hp0 Hnd IH]; intros w Hopen.
  { exists w. do 3 (split; [done|]). split; [|split]; [| |done];
      intros ? ? H; by apply elem_of_nil in H. }
  rewrite fanout_cons. unfold fan_body.
  destruct (clients w !! p0) as [b0|] eqn:Hm0.
  - destruct (Hopen p0) as (c0 & Hc0 & Ho0); [left|by exists b0|].
    destruct (Chan.full (send c0)) eqn:Hf0.
    + rewrite (fan1_full m p0 w c0) by done. simpl.
      set (w1 := set_clients _ _).
      destruct (IH w1) as (w' & Hrun & Hw & Hr & Ha & Hb & Hc).
      { intros p Hp [b Hb]. assert (p ≠ p0) by (intros ->; done).
        simpl in Hb. rewrite lookup_delete_ne in Hb by done.
        destruct (Hopen p) as (c & ? & ?); [by right|by exists b|].
        exists c. simpl. by rewrite lookup_insert_ne. }
      exists w'. split; [done|]. split; [done|]. split; [done|].
      split; [|split].
      * intros p c [->|Hp]%elem_of_cons Hm Hcp Hf; [congruence|].
        assert (p ≠ p0) by (intros ->; done).
        destruct (Ha p c) as [H1 H2]; try done.
        -- unfold member, w1; simpl. by rewrite lookup_delete_ne.
        -- unfold w1; simpl. by rewrite lookup_insert_ne.
        -- split; [|done]. rewrite H1. unfold w1; simpl.
           by rewrite lookup_delete_ne.
      * intros p c [->|Hp]%elem_of_cons Hm Hcp Hf.
        -- destruct (Hc p0) as [H1 H2]; [by intros [? _]|].
           rewrite H1, H2. unfold w1; simpl.
           rewrite lookup_delete_eq, lookup_insert_eq. split; congruence.
        -- assert (p ≠ p0) by (intros ->; done).
           destruct (Hb p c) as [H1 H2]; try done.
           ++ unfold member, w1; simpl. by rewrite lookup_delete_ne.
           ++ unfold w1; simpl. by rewrite lookup_insert_ne.
      * intros p Hn. assert (p ≠ p0).
        { intros ->. apply Hn. split; [left|by exists b0]. }
        destruct (Hc p) as [H1 H2].
        { intros [Hp Hm]. apply Hn. split; [by right|].
          unfold member, w1 in Hm; simpl in Hm.
          by rewrite lookup_delete_ne in Hm. }
        rewrite H1, H2. unfold w1; simpl.
        by rewrite lookup_delete_ne, lookup_insert_ne.
    + rewrite (fan1_room m p0 w c0) by done. simpl.
      set (w1 := set_client _ _ _).
      destruct (IH w1) as (w' & Hrun & Hw & Hr & Ha & Hb & Hc).
      { intros p Hp Hm. assert (p ≠ p0) by (intros ->; done).
        destruct (Hopen p) as (c & ? & ?); [by right|done|].
        exists c. simpl. by rewrite lookup_insert_ne. }
      exists w'. split; [done|]. split; [done|]. split; [done|].
      split; [|split].
      * intros p c [->|Hp]%elem_of_cons Hm Hcp Hf.
        -- destruct (Hc p0) as [H1 H2]; [by intros [? _]|].
           rewrite H1, H2. unfold w1; simpl.
           rewrite lookup_insert_eq. split; congruence.
        -- assert (p ≠ p0) by (intros ->; done).
           destruct (Ha p c) as [H1 H2]; try done.
           unfold w1; simpl. by rewrite lookup_insert_ne.
      * intros p c [->|Hp]%elem_of_cons Hm Hcp Hf; [congruence|].
        assert (p ≠ p0) by (intros ->; done).
        destruct (Hb p c) as [H1 H2]; try done.
        unfold w1; simpl. by rewrite lookup_insert_ne.
      * intros p Hn. assert (p ≠ p0).
        { intros ->. apply Hn. split; [left|by exists b0]. }
        destruct (Hc p) as [H1 H2].
        { intros [Hp Hm]. apply Hn. split; [by right|done]. }
        rewrite H1, H2. unfold w1; simpl. by rewrite lookup_insert_ne.
  - simpl.
    destruct (IH w) as (w' & Hrun & Hw & Hr & Ha & Hb & Hc).
    { intros p Hp Hm. apply Hopen; [by right|done]. }
    exists w'. split; [done|]. split; [done|]. split; [done|].
    split; [|split].
    + intros p c [->|Hp]%elem_of_cons [b Hm] Hcp Hf; [congruence|].
      apply Ha; try done. by exists b.
    + intros p c [->|Hp]%elem_of_cons [b Hm] Hcp Hf; [congruence|].
      apply Hb; try done. by exists b.
    + intros p Hn. apply Hc. intros [Hp Hm]. apply Hn. split; [by right|done].
Qed.

Lemma inv_member_open w p : inv w → member p w → is_open p w.
Proof.
  intros Hi Hm. destruct (inv_alloc w Hi p Hm) as [c Hc].
  exists c. split; [done|]. by apply (inv_open w Hi p c Hc).
Qed.

(** The fan-out of [Hub.run] on a well-formed world. *)
Lemma hub_broadcast_spec m w :
  inv w →
  ∃ w', hub_broadcast m w = Done w' ∧
    writers w' = writers w ∧ readers w' = readers w ∧
    (∀ p c, member p w → heap w !! p = Some c →
       Chan.full (send c) = false →
       clients w' !! p = clients w !! p ∧
       heap w' !! p = Some (set_send (pushed m (send c)) c)) ∧
    (∀ p c, member p w → heap w !! p = Some c →
       Chan.full (send c) = true →
       clients w' !! p = None ∧
       heap w' !! p = Some (set_send (shut (send c)) c)) ∧
    (∀ p, ¬ member p w →
       clients w' !! p = clients w !! p ∧ heap w' !! p = heap w !! p).
Proof.
  intros Hi. unfold hub_broadcast.
  destruct (fanout_spec m (range_clients w) w) as (w' & Hrun & Hw & Hr & Ha & Hb & Hc).
  { apply range_clients_NoDup. }
  { intros p _ Hm. by apply inv_member_open. }
  exists w'. do 3 (split; [done|]). split; [|split].
  - intros p c Hm. apply Ha; [by apply elem_of_range_clients|done].
  - intros p c Hm. apply Hb; [by apply elem_of_range_clients|done].
  - intros p Hn. apply Hc. by intros [_ ?].
Qed.

Lemma hub_broadcast_inv m w w' :
  inv w → hub_broadcast m w = Done w' → inv w'.
Proof.
  intros Hi Hrun.
  destruct (hub_broadcast_spec m w Hi) as (w'' & Hrun' & _ & _ & Ha & Hb & Hc).
  rewrite Hrun in Hrun'. injection Hrun' as <-.
  assert (Hcase : ∀ p,
    (clients w' !! p = clients w !! p ∧ heap w' !! p = heap w !! p) ∨
    (∃ c, member p w ∧ heap w !! p = Some c ∧
       clients w' !! p = clients w !! p ∧
       heap w' !! p = Some (set_send (pushed m (send c)) c)) ∨
    (∃ c, member p w ∧ heap w !! p = Some c ∧ clients w' !! p = None ∧
       heap w' !! p = Some (set_send (shut (send c)) c))).
  { intros p. destruct (decide (member p w)) as [Hm|Hn]; [|left; by apply Hc].
    destruct (inv_alloc w Hi p Hm) as [c Hcp].
    destruct (Chan.full (send c)) eqn:Hf.
    - right; right. exists c. destruct (Hb p c) as [? ?]; done.
    - right; left. exists c. destruct (Ha p c) as [? ?]; done. }
  split.
  - intros p [b Hm].
    destruct (Hcase p) as [[H1 H2]|[(c & _ & _ & _ & H2)|(c & _ & _ & H1 & _)]].
    + rewrite H2. apply (inv_alloc w Hi). exists b. by rewrite <- H1.
    + by rewrite H2.
    + congruence.
  - intros p b Hm.
    destruct (Hcase p) as [[H1 H2]|[(c & _ & _ & H1 & _)|(c & _ & _ & H1 & _)]].
    + apply (inv_true w Hi p). by rewrite <- H1.
    + apply (inv_true w Hi p). by rewrite <- H1.
    + congruence.
  - intros p c' Hc'. unfold member.
    destruct (Hcase p) as [[H1 H2]|[(c & Hm & _ & H1 & H2)|(c & _ & _ & H1 & H2)]].
    + rewrite H1. apply (inv_open w Hi). by rewrite <- H2.
    + rewrite H1. rewrite H2 in Hc'. injection Hc' as <-. by simpl.
    + rewrite H1. rewrite H2 in Hc'. injection Hc' as <-. simpl.
      split; [by intros [? ?]|done].
Qed.

(** [remove] on a member: the key is deleted and the queue closed. *)
Lemma hub_unregister_member p w c :
  member p w → heap w !! p = Some c → closed (send c) = false →
  hub_unregister p w =
    Done (set_client p (set_send (shut (send c)) c)
            (set_clients (delete p (clients w)) w)).
Proof.
  intros [b Hm] Hc Ho. unfold hub_unregister, deref, Chan.close.
  rewrite Hm. simpl. rewrite Hc. simpl. by rewrite Ho.
Qed.

Lemma hub_unregister_absent p w :
  clients w !! p = None → hub_unregister p w = Done w.
Proof. intros Hm. unfold hub_unregister. by rewrite Hm. Qed.

Lemma hub_unregister_inv p w w' :
  inv w → hub_unregister p w = Done w' → inv w'.
Proof.
  intros Hi Hrun. destruct (clients w !! p) as [b|] eqn:Hm.
  - destruct (inv_member_open w p Hi) as (c & Hc & Ho); [by exists b|].
    rewrite (hub_unregister_member p w c) in Hrun by (done || by exists b).
    injection Hrun as <-. split; unfold member; simpl.
    + intros q [bq Hq]. destruct (decide (q = p)) as [->|Hne].
      * by rewrite lookup_delete_eq in Hq.
      * rewrite lookup_delete_ne in Hq by done.
        rewrite lookup_insert_ne by done. apply (inv_alloc w Hi). by exists bq.
    + intros q bq Hq. destruct (decide (q = p)) as [->|Hne].
      * by rewrite lookup_delete_eq in Hq.
      * rewrite lookup_delete_ne in Hq by done. by apply (inv_true w Hi q).
    + intros q cq Hq. destruct (decide (q = p)) as [->|Hne].
      * rewrite lookup_insert_eq in Hq. injection Hq as <-.
        rewrite lookup_delete_eq. simpl. split; [by intros [? ?]|done].
      * rewrite lookup_insert_ne in Hq by done.
        rewrite lookup_delete_ne by done. by apply (inv_open w Hi).
  - rewrite hub_unregister_absent in Hrun by done. by injection Hrun as <-.
Qed.

Lemma hub_unregister_no_panic p w : inv w → hub_unregister p w ≠ Panics.
Proof.
  intros Hi. destruct (clients w !! p) as [b|] eqn:Hm.
  - destruct (inv_member_open w p Hi) as (c & Hc & Ho); [by exists b|].
    by rewrite (hub_unregister_member p w c) by (done || by exists b).
  - by rewrite hub_unregister_absent.
Qed.

Lemma newHub_inv : inv newHub.
Proof.
  split; unfold member; simpl.
  - intros p [b H]. by rewrite lookup_empty in H.
  - intros p b H. by rewrite lookup_empty in H.
  - intros p c H. by rewrite lookup_empty in H.
Qed.

Lemma fresh_heap_None w : heap w !! fresh (dom (heap w)) = None.
Proof. apply not_elem_of_dom, is_fresh. Qed.

Lemma serveWS_inv ok q now w : inv w → inv (serveWS ok q now w).
Proof.
  intros Hi. unfold serveWS. destruct ok; [|done].
  set (p := fresh (dom (heap w))).
  assert (Hp : heap w !! p = None) by apply fresh_heap_None.
  split; unfold member; simpl.
  - intros r [b Hr]. destruct (decide (r = p)) as [->|Hne].
    + by rewrite lookup_insert_eq.
    + rewrite lookup_insert_ne in Hr by done. rewrite lookup_insert_ne by done.
      apply (inv_alloc w Hi). by exists b.
  - intros r b Hr. destruct (decide (r = p)) as [->|Hne].
    + rewrite lookup_insert_eq in Hr. congruence.
    + rewrite lookup_insert_ne in Hr by done. by apply (inv_true w Hi r).
  - intros r c Hr. destruct (decide (r = p)) as [->|Hne].
    + rewrite lookup_insert_eq in Hr. injection Hr as <-.
      rewrite lookup_insert_eq. simpl. split; [done|by eexists].
    + rewrite lookup_insert_ne in Hr by done. rewrite lookup_insert_ne by done.
      by apply (inv_open w Hi).
Qed.

(* ===================================================================== *)
(** ** Streams *)
(* ===================================================================== *)

Lemma stream_pushed m c :
  stream (set_send (pushed m (send c)) c) = stream c ++ [m].
Proof. unfold stream. simpl. by rewrite app_assoc. Qed.

Lemma stream_shut c : stream (set_send (shut (send c)) c) = stream c.
Proof. done. Qed.

Lemma stream_conn_close c :
  stream (set_conn (conn_close (conn c)) c) = stream c.
Proof. done. Qed.

Lemma taken_write_json m ok k c :
  taken (set_conn (conn_write (JSONFrame m) ok k) c)
  = taken (set_conn k c) ++ [m].
Proof. unfold taken. simpl. by rewrite omap_app. Qed.

Lemma taken_write_close ok k c :
  taken (set_conn (conn_write CloseFrame ok k) c) = taken (set_conn k c).
Proof. unfold taken. simpl. rewrite omap_app. simpl. by rewrite app_nil_r. Qed.

(* ===================================================================== *)
(** ** The write pump *)
(* ===================================================================== *)

(** The three situations of a turn of [writePump]. *)
Lemma writePump_message p ok w c m rest :
  heap w !! p = Some c → buf (send c) = m :: rest →
  ∃ c', writePump p ok w =
          Done (if ok then set_client p c' w
                else stop_writer p (set_client p c' w), []) ∧
    username c' = username c ∧
    send c' = {| buf := rest; capacity := capacity (send c);
                 closed := closed (send c) |} ∧
    calls (conn c') = calls (conn c) ++ [(JSONFrame m, ok)] ∧
    conn_closed (conn c') = (if ok then conn_closed (conn c) else true).
Proof.
  intros Hc Hb. unfold writePump, deref, Chan.recv. rewrite Hc. simpl.
  rewrite Hb. simpl. destruct ok; simpl; eexists; (split; [done|]); done.
Qed.

Lemma writePump_drained p ok w c :
  heap w !! p = Some c → buf (send c) = [] → closed (send c) = true →
  ∃ c', writePump p ok w = Done (stop_writer p (set_client p c' w), []) ∧
    username c' = username c ∧ send c' = send c ∧
    calls (conn c') = calls (conn c) ++ [(CloseFrame, ok)] ∧
    conn_closed (conn c') = true.
Proof.
  intros Hc Hb Hcl. unfold writePump, deref, Chan.recv. rewrite Hc. simpl.
  rewrite Hb, Hcl. simpl. eexists. split; [done|]. by destruct (send c).
Qed.

Lemma writePump_parked p ok w c :
  heap w !! p = Some c → buf (send c) = [] → closed (send c) = false →
  writePump p ok w = Blocks.
Proof.
  intros Hc Hb Hcl. unfold writePump, deref, Chan.recv. rewrite Hc. simpl.
  by rewrite Hb, Hcl.
Qed.

(** [writePump] never sends anything to the hub and never touches the
    map. *)
Lemma writePump_silent p ok w w' rs :
  writePump p ok w = Done (w', rs) →
  rs = [] ∧ clients w' = clients w ∧ readers w' = readers w ∧
  ∀ q, q ≠ p → heap w' !! q = heap w !! q.
Proof.
  unfold writePump, deref. destruct (heap w !! p) as [c|]; [|done]. simpl.
  destruct (Chan.recv (send c)) as [[[m|] ch]| |]; simpl; [| |done..].
  - destruct ok; intros [= <- <-]; simpl; repeat split; try done;
      intros q Hq; by rewrite lookup_insert_ne.
  - intros [= <- <-]; simpl; repeat split; try done;
      intros q Hq; by rewrite lookup_insert_ne.
Qed.

(** What a turn of [writePump] does to its own client: the stream is
    unchanged, and the queue is neither closed nor reopened. *)
Lemma writePump_own p ok w w' rs c :
  writePump p ok w = Done (w', rs) → heap w !! p = Some c →
  ∃ c', heap w' !! p = Some c' ∧ username c' = username c ∧
    capacity (send c') = capacity (send c) ∧
    closed (send c') = closed (send c) ∧ stream c' = stream c.
Proof.
  intros Hrun Hc. destruct (buf (send c)) as [|m rest] eqn:Hb.
  - destruct (closed (send c)) eqn:Hcl.
    + destruct (writePump_drained p ok w c) as (c' & Hw & Hu & Hs & Hk & _);
        try done.
      rewrite Hw in Hrun. injection Hrun as <- <-. exists c'. simpl.
      rewrite lookup_insert_eq. split; [done|]. split; [done|].
      rewrite Hs. split; [done|]. split; [done|].
      unfold stream, taken. rewrite Hs, Hk, omap_app. simpl.
      by rewrite app_nil_r.
    + by rewrite (writePump_parked p ok w c) in Hrun.
  - destruct (writePump_message p ok w c m rest) as (c' & Hw & Hu & Hs & Hk & _);
      try done.
    rewrite Hw in Hrun. exists c'.
    assert (heap w' !! p = Some c') as ->.
    { destruct ok; injection Hrun as <- <-; simpl; by rewrite lookup_insert_eq. }
    split; [done|]. split; [done|]. rewrite Hs. simpl.
    split; [done|]. split; [done|].
    unfold stream, taken. rewrite Hs, Hk, Hb, omap_app. simpl.
    by rewrite <- app_assoc.
Qed.

(* ===================================================================== *)
(** ** Steps of the server *)
(* ===================================================================== *)

Lemma hub_unregister_spec q w :
  inv w →
  ∃ w', hub_unregister q w = Done w' ∧
    writers w' = writers w ∧ readers w' = readers w ∧
    clients w' = delete q (clients w) ∧
    (∀ p, p ≠ q → heap w' !! p = heap w !! p) ∧
    (member q w → ∃ c, heap w !! q = Some c ∧ closed (send c) = false ∧
                       heap w' !! q = Some (set_send (shut (send c)) c)) ∧
    (¬ member q w → w' = w).
Proof.
  intros Hi. destruct (clients w !! q) as [b|] eqn:Hm.
  - destruct (inv_member_open w q Hi) as (c & Hc & Ho); [by exists b|].
    rewrite (hub_unregister_member q w c) by (done || by exists b).
    eexists. split; [done|]. simpl. do 3 (split; [done|]).
    split; [|split].
    + intros p Hp. by rewrite lookup_insert_ne.
    + intros _. exists c. by rewrite lookup_insert_eq.
    + intros Hn. destruct Hn. by exists b.
  - rewrite hub_unregister_absent by done. exists w.
    do 3 (split; [done|]). split.
    { symmetry. by apply delete_id. }
    split; [done|]. split; [|done]. intros [b Hb]. congruence.
Qed.

Lemma inv_frame w w' :
  inv w → clients w' = clients w →
  (∀ p, match heap w !! p, heap w' !! p with
        | Some c, Some c' => closed (send c') = closed (send c)
        | None, None => True
        | _, _ => False
        end) →
  inv w'.
Proof.
  intros Hi Hcl Hh. split; unfold member; rewrite Hcl.
  - intros p Hm. specialize (Hh p).
    destruct (inv_alloc w Hi p Hm) as [c Hc]. rewrite Hc in Hh.
    by destruct (heap w' !! p).
  - apply (inv_true w Hi).
  - intros p c' Hc'. specialize (Hh p). rewrite Hc' in Hh.
    destruct (heap w !! p) as [c|] eqn:Hc; [|done]. rewrite Hh.
    by apply (inv_open w Hi).
Qed.

Lemma deref_Some p w c : heap w !! p = Some c → deref p w = Done c.
Proof. intros H. unfold deref. by rewrite H. Qed.

Lemma deref_None p w : heap w !! p = None → deref p w = Panics.
Proof. intros H. unfold deref. by rewrite H. Qed.

Lemma step_inv e w w' : inv w → step e w = Done w' → inv w'.
Proof.
  intros Hi. destruct e as [ok q now|q r now|q ok]; simpl.
  - intros [= <-]. by apply serveWS_inv.
  - case_decide; [|done].
    destruct (heap w !! q) as [cq|] eqn:Hq;
      [rewrite (deref_Some q w cq) by done|by rewrite deref_None].
    simpl. destruct r as [msg|]; simpl.
    + intros (w1 & Hb & [= <-])%outcome_bind_Done.
      by eapply hub_broadcast_inv.
    + intros (w1 & Hu & (c1 & Hd & [= <-])%outcome_bind_Done)%outcome_bind_Done.
      apply (inv_frame w1); [by eapply hub_unregister_inv|done|].
      intros p. simpl. unfold deref in Hd.
      destruct (heap w1 !! q) as [c1'|] eqn:Hq1; [|done].
      injection Hd as ->.
      destruct (decide (p = q)) as [->|Hne].
      * by rewrite Hq1, lookup_insert_eq.
      * rewrite lookup_insert_ne by done. by destruct (heap w1 !! p).
  - case_decide; [|done].
    intros ([w1 rs] & Hw & [= <-])%outcome_bind_Done.
    destruct (writePump_silent q ok w w1 rs Hw) as (_ & Hcl & _ & Hh).
    apply (inv_frame w); [done..|].
    intros p. destruct (decide (p = q)) as [->|Hne].
    + destruct (heap w !! q) as [c|] eqn:Hc.
      * destruct (writePump_own q ok w w1 rs c Hw Hc) as (c' & -> & _ & _ & ? & _).
        done.
      * unfold writePump in Hw. by rewrite deref_None in Hw.
    + rewrite Hh by done. by destruct (heap w !! p).
Qed.

(** The effect of one step on an allocated client [p]: it stays allocated
    under the same name; if it is a member afterwards it was one before and
    its stream has grown by exactly the message announced in this step (if
    any); if it is not a member afterwards its stream is unchanged. *)
Lemma step_frame e w w' p c :
  inv w → step e w = Done w' → heap w !! p = Some c →
  ∃ c', heap w' !! p = Some c' ∧ username c' = username c ∧
    capacity (send c') = capacity (send c) ∧
    (member p w' → member p w ∧ stream c' = stream c ++ announced e w) ∧
    (¬ member p w' → stream c' = stream c).
Proof.
  intros Hi Hstep Hc. destruct e as [ok q now|q r now|q ok]; simpl in Hstep.
  - injection Hstep as <-. unfold serveWS. destruct ok; simpl.
    + assert (p ≠ fresh (dom (heap w))).
      { intros ->. by rewrite fresh_heap_None in Hc. }
      exists c. rewrite lookup_insert_ne by done. split; [done|].
      unfold member; simpl. rewrite lookup_insert_ne by done.
      rewrite app_nil_r. done.
    + exists c. rewrite app_nil_r. done.
  - case_decide; [|done].
    destruct (heap w !! q) as [cq|] eqn:Hq;
      [rewrite (deref_Some q w cq) in Hstep by done
      |by rewrite deref_None in Hstep].
    simpl in Hstep. destruct r as [msg|].
    + simpl in Hstep.
      apply outcome_bind_Done in Hstep as (w1 & Hb & [= <-]).
      set (m := {| Username := username cq; Content := Content msg;
                   Timestamp := now |}) in *.
      assert (announced (Read q (Some msg) now) w = [m]) as ->.
      { simpl. by rewrite Hq. }
      destruct (hub_broadcast_spec m w Hi) as (w2 & Hb' & _ & _ & Ha & Hf & Hn).
      rewrite Hb in Hb'. injection Hb' as <-.
      destruct (decide (member p w)) as [Hm|Hnm].
      * destruct (Chan.full (send c)) eqn:Hfull.
        -- destruct (Hf p c) as [H1 H2]; try done.
           exists (set_send (shut (send c)) c). split; [done|].
           unfold member. rewrite H1. simpl.
           repeat split; try done; try by intros [? ?].
        -- destruct (Ha p c) as [H1 H2]; try done.
           exists (set_send (pushed m (send c)) c). split; [done|].
           unfold member. rewrite H1. rewrite stream_pushed. simpl.
           repeat split; try done; try (intros Hn'; by destruct Hn').
      * destruct (Hn p Hnm) as [H1 H2]. exists c. rewrite H2.
        unfold member. rewrite H1. repeat split; try done;
          try (intros Hm; by destruct Hnm).
    + simpl in Hstep.
      apply outcome_bind_Done in Hstep as (w1 & Hu & Hstep).
      apply outcome_bind_Done in Hstep as (c1 & Hd & [= <-]).
      destruct (hub_unregister_spec q w Hi) as (w2 & Hu' & _ & _ & Hcl & Hh & Hm & Hn).
      rewrite Hu in Hu'. injection Hu' as <-.
      unfold member. simpl. rewrite Hcl, app_nil_r.
      destruct (decide (p = q)) as [->|Hne].
      * rewrite lookup_insert_eq, lookup_delete_eq.
        eexists. split; [done|]. simpl.
        unfold deref in Hd. destruct (heap w1 !! q) as [c1'|] eqn:Hq1; [|done].
        injection Hd as ->.
        destruct (decide (member q w)) as [Hmq|Hnq].
        -- destruct (Hm Hmq) as (c0 & Hc0 & _ & Hc1).
           assert (c0 = c) as -> by congruence.
           assert (c1 = set_send (shut (send c)) c) as -> by congruence.
           repeat split; try done; try by intros [? ?].
        -- rewrite (Hn Hnq) in Hq1. assert (c1 = c) as -> by congruence.
           repeat split; try done; try by intros [? ?].
      * rewrite lookup_insert_ne, lookup_delete_ne, Hh by done.
        exists c. repeat split; done.
  - case_decide; [|done].
    apply outcome_bind_Done in Hstep as ([w1 rs] & Hw & [= <-]).
    destruct (writePump_silent q ok w w1 rs Hw) as (_ & Hcl & _ & Hh).
    unfold member. rewrite Hcl. simpl. rewrite app_nil_r.
    destruct (decide (p = q)) as [->|Hne].
    + destruct (writePump_own q ok w w1 rs c Hw Hc) as (c' & ? & ? & ? & _ & ?).
      exists c'. repeat split; done.
    + exists c. rewrite Hh by done. repeat split; done.
Qed.

Lemma step_pumps e w w' p :
  inv w → step e w = Done w' → p ∈ writers w' ∪ readers w' →
  p ∈ writers w ∪ readers w ∨ is_Some (heap w' !! p).
Proof.
  intros Hi Hstep. destruct e as [ok q now|q r now|q ok]; simpl in Hstep.
  - injection Hstep as <-. unfold serveWS. destruct ok; simpl; [|by left].
    intros Hp. destruct (decide (p = fresh (dom (heap w)))) as [->|Hne].
    + right. by rewrite lookup_insert_eq.
    + left. set_solver.
  - case_decide; [|done].
    destruct (heap w !! q) as [cq|] eqn:Hq;
      [rewrite (deref_Some q w cq) in Hstep by done
      |by rewrite deref_None in Hstep].
    simpl in Hstep. destruct r as [msg|]; simpl in Hstep.
    + apply outcome_bind_Done in Hstep as (w1 & Hb & [= <-]).
      destruct (hub_broadcast_spec {| Username := username cq;
        Content := Content msg; Timestamp := now |} w Hi)
        as (w2 & Hb' & Hw & Hr & _).
      rewrite Hb in Hb'. injection Hb' as <-. rewrite Hw, Hr. by left.
    + apply outcome_bind_Done in Hstep as (w1 & Hu & Hstep).
      apply outcome_bind_Done in Hstep as (c1 & Hd & [= <-]).
      destruct (hub_unregister_spec q w Hi) as (w2 & Hu' & Hw & Hr & _).
      rewrite Hu in Hu'. injection Hu' as <-. simpl. rewrite Hw, Hr.
      left. set_solver.
  - case_decide; [|done].
    apply outcome_bind_Done in Hstep as ([w1 rs] & Hw & [= <-]).
    destruct (writePump_silent q ok w w1 rs Hw) as (_ & _ & Hr & _).
    rewrite Hr. intros Hp. left.
    assert (writers w1 ⊆ writers w); [|set_solver].
    clear Hp. unfold writePump in Hw.
    destruct (deref q w) as [c| |]; [|done..]. simpl in Hw.
    destruct (Chan.recv (send c)) as [[[m|] ch]| |]; simpl in Hw; [| |done..].
    + destruct ok; injection Hw as <- <-; simpl; set_solver.
    + injection Hw as <- <-; simpl; set_solver.
Qed.

Lemma step_pumps_alloc e w w' :
  inv w → pumps_alloc w → step e w = Done w' → pumps_alloc w'.
Proof.
  intros Hi Hp Hstep p Hin.
  destruct (step_pumps e w w' p Hi Hstep Hin) as [Hold|?]; [|done].
  destruct (Hp p Hold) as [c Hc].
  destruct (step_frame e w w' p c Hi Hstep Hc) as (c' & -> & _). by eexists.
Qed.

(** On a well-formed world no step panics: the hub never sends on or
    closes a closed channel, and no pump dereferences a dangling client. *)
Lemma step_no_panic e w : inv w → pumps_alloc w → step e w ≠ Panics.
Proof.
  intros Hi Hp. destruct e as [ok q now|q r now|q ok]; simpl; [done| |].
  - case_decide as Hq; [|done].
    destruct (Hp q) as [cq Hcq]; [set_solver|].
    rewrite (deref_Some q w cq) by done. simpl.
    destruct r as [msg|]; simpl.
    + destruct (hub_broadcast_spec {| Username := username cq;
        Content := Content msg; Timestamp := now |} w Hi) as (w1 & -> & _).
      done.
    + destruct (hub_unregister_spec q w Hi)
        as (w1 & -> & _ & _ & _ & Hh & Hm & Hn).
      simpl. destruct (heap w1 !! q) as [c1|] eqn:Hq1.
      { by rewrite (deref_Some q w1 c1). }
      destruct (decide (member q w)) as [Hmq|Hnq].
      * destruct (Hm Hmq) as (c & _ & _ & ?). congruence.
      * rewrite (Hn Hnq) in Hq1. congruence.
  - case_decide as Hq; [|done].
    destruct (Hp q) as [c Hc]; [set_solver|].
    unfold writePump. rewrite (deref_Some q w c) by done. simpl.
    destruct (Chan.recv (send c)) as [[[m|] ch]| |] eqn:Hr; simpl; try done.
    + by destruct ok.
    + unfold Chan.recv in Hr. destruct (buf (send c)); [|done].
      by destruct (closed (send c)).
Qed.

(* ===================================================================== *)
(** ** Runs *)
(* ===================================================================== *)

Lemma run_app es1 es2 w : run (es1 ++ es2) w = run es1 w ≫= run es2.
Proof.
  revert w. induction es1 as [|e es1 IH]; intros w; [done|].
  simpl. destruct (step e w); simpl; [apply IH|done..].
Qed.

Lemma run_singleton e w : run [e] w = step e w.
Proof. unfold run. by destruct (step e w). Qed.

Lemma run_inv es w w' : inv w → run es w = Done w' → inv w'.
Proof.
  revert w. induction es as [|e es IH]; intros w Hi; simpl.
  - by intros [= <-].
  - intros (w1 & Hs & Hr)%outcome_bind_Done.
    apply (IH w1); [by eapply step_inv|done].
Qed.

Lemma run_pumps_alloc es w w' :
  inv w → pumps_alloc w → run es w = Done w' → pumps_alloc w'.
Proof.
  revert w. induction es as [|e es IH]; intros w Hi Hp; simpl.
  - by intros [= <-].
  - intros (w1 & Hs & Hr)%outcome_bind_Done.
    apply (IH w1); [by eapply step_inv|by eapply step_pumps_alloc|done].
Qed.

Lemma run_no_panic es w : inv w → pumps_alloc w → run es w ≠ Panics.
Proof.
  revert w. induction es as [|e es IH]; intros w Hi Hp; simpl; [done|].
  destruct (step e w) as [w1| |] eqn:Hs; simpl; [|done|].
  - apply IH; [by eapply step_inv|by eapply step_pumps_alloc].
  - by destruct (step_no_panic e w).
Qed.

Lemma announcements_app es1 es2 w w1 :
  run es1 w = Done w1 →
  announcements (es1 ++ es2) w = announcements es1 w ++ announcements es2 w1.
Proof.
  revert w. induction es1 as [|e es1 IH]; intros w; simpl.
  - by intros [= <-].
  - intros (w2 & Hs & Hr)%outcome_bind_Done. rewrite Hs.
    by rewrite (IH w2), app_assoc.
Qed.

(** Along a run, an allocated client keeps its name; if it is a member at
    the end it was one all along and its stream has grown by exactly the
    messages announced during the run, in the order in which the hub
    received them; if it is not a member at the start it never becomes one
    and its stream does not change. *)
Lemma run_frame es w w' p c :
  inv w → run es w = Done w' → heap w !! p = Some c →
  ∃ c', heap w' !! p = Some c' ∧ username c' = username c ∧
    capacity (send c') = capacity (send c) ∧
    (member p w' → member p w ∧ stream c' = stream c ++ announcements es w) ∧
    (¬ member p w → ¬ member p w' ∧ stream c' = stream c).
Proof.
  revert w c. induction es as [|e es IH]; intros w c Hi; simpl.
  - intros [= <-] Hc. exists c. rewrite app_nil_r. done.
  - intros (w1 & Hs & Hr)%outcome_bind_Done Hc. rewrite Hs.
    destruct (step_frame e w w1 p c Hi Hs Hc) as (c1 & Hc1 & Hu1 & Hk1 & Hm1 & Hn1).
    destruct (IH w1 c1 (step_inv e w w1 Hi Hs) Hr Hc1)
      as (c' & Hc' & Hu & Hk & Hm & Hn).
    exists c'. split; [done|]. split; [congruence|]. split; [congruence|].
    split.
    + intros Hw'. destruct (Hm Hw') as [Hw1 ->].
      destruct (Hm1 Hw1) as [Hw ->]. by rewrite app_assoc.
    + intros Hw. assert (¬ member p w1) as Hw1 by (intros ?; by apply Hw, Hm1).
      destruct (Hn Hw1) as [? ->]. split; [done|]. by apply Hn1.
Qed.

(* ===================================================================== *)
(** ** Example worlds *)
(* ===================================================================== *)

Lemma alice_bob_inv : inv alice_bob.
Proof. unfold alice_bob. do 2 apply serveWS_inv. apply newHub_inv. Qed.

Lemma alice_bob_clients :
  clients alice_bob = <[1%nat := true]> (<[0%nat := true]> ∅).
Proof. vm_compute. reflexivity. Qed.

Lemma alice_bob_members p : p ∈ [1%nat; 0%nat] ↔ member p alice_bob.
Proof.
  unfold member. rewrite alice_bob_clients.
  rewrite !elem_of_cons, elem_of_nil.
  destruct (decide (p = 1%nat)) as [->|H1].
  { rewrite lookup_insert_eq. split; [by eexists|by left]. }
  destruct (decide (p = 0%nat)) as [->|H0].
  { rewrite lookup_insert_ne, lookup_insert_eq by done.
    split; [by eexists|by right; left]. }
  rewrite !lookup_insert_ne, lookup_empty by done.
  split; [by intros [?|[?|[]]]|by intros [? ?]].
Qed.

Lemma saturated_run : run (chatter 256) alice_bob = Done saturated.
Proof. vm_compute. reflexivity. Qed.

Lemma saturated_inv : inv saturated.
Proof. apply (run_inv _ _ _ alice_bob_inv saturated_run). Qed.

Lemma saturated_clients : clients saturated = clients alice_bob.
Proof. vm_compute. reflexivity. Qed.

Example saturated_alice_full :
  (λ c, (length (buf (send c)), Chan.full (send c))) <$> heap saturated !! 0%nat
  = Some (256%nat, true).
Proof. vm_compute. reflexivity. Qed.

Example saturated_broadcast :
  run_members [Read 1%nat (Some hi) 4000000000] saturated = Some [1%nat].
Proof. vm_compute. reflexivity. Qed.

Lemma saturated_members p : p ∈ [1%nat; 0%nat] ↔ member p saturated.
Proof.
  unfold member. rewrite saturated_clients. apply alice_bob_members.
Qed.

(* ===================================================================== *)
(** ** Broadcast *)
(* ===================================================================== *)





(** C2.  Every connection that is a member when the broadcast is processed
    and whose queue is not full stays a member and receives exactly one
    copy of the message: its queue afterwards is its queue before followed
    by the message, and nothing else about it changes. *)
Theorem broadcast_delivers_exactly_once m w :
  inv w →
  ∃ w', hub_broadcast m w = Done w' ∧
    ∀ p c, member p w → heap w !! p = Some c → Chan.full (send c) = false →
      ∃ c', heap w' !! p = Some c' ∧ member p w' ∧
        buf (send c') = buf (send c) ++ [m] ∧
        closed (send c') = false ∧ capacity (send c') = capacity (send c) ∧
        conn c' = conn c ∧ username c' = username c.
Proof.
  intros Hi.
  destruct (hub_broadcast_spec m w Hi) as (w' & Hb & _ & _ & Ha & _ & _).
  exists w'. split; [done|]. intros p c Hm Hc Hfull.
  destruct (Ha p c) as [H1 H2]; try done. eexists. split; [done|].
  unfold member. rewrite H1. done.
Qed.

Lemma broadcast_delivers_exactly_once_witness :
  ∃ w', hub_broadcast hi alice_bob = Done w' ∧
    ∀ p c, member p alice_bob → heap alice_bob !! p = Some c →
      Chan.full (send c) = false →
      ∃ c', heap w' !! p = Some c' ∧ member p w' ∧
        buf (send c') = buf (send c) ++ [hi] ∧
        closed (send c') = false ∧ capacity (send c') = capacity (send c) ∧
        conn c' = conn c ∧ username c' = username c.
Proof. apply (broadcast_delivers_exactly_once hi alice_bob), alice_bob_inv. Defined.

(* ===================================================================== *)
(** ** Register and unregister *)
(* ===================================================================== *)

Lemma hub_unregister_not_member p w w' :
  hub_unregister p w = Done w' → ¬ member p w'.
Proof.
  unfold hub_unregister, member. destruct (clients w !! p) as [b|] eqn:Hm.
  - simpl. intros (c & _ & (ch & _ & [= <-])%outcome_bind_Done)%outcome_bind_Done.
    simpl. rewrite lookup_delete_eq. by intros [? ?].
  - intros [= <-]. rewrite Hm. by intros [? ?].
Qed.

Lemma hub_unregister_again p w :
  ¬ member p w → hub_unregister p w = Done w.
Proof.
  intros Hn. apply hub_unregister_absent.
  destruct (clients w !! p) eqn:E; [|done]. destruct Hn. by eexists.
Qed.

(** C3.  [remove] is idempotent.  On a connection that is not in the map
    the unregister case does nothing at all: the world is unchanged, so the
    queue is not closed again and nothing panics.  After any unregister the
    connection is not in the map, so a second unregister is such a no-op;
    and so is an unregister that arrives after a broadcast found the queue
    full, closed it and deleted the connection. *)
Theorem remove_idempotent p :
  (∀ w, ¬ member p w → hub_unregister p w = Done w) ∧
  (∀ w w1, hub_unregister p w = Done w1 →
     ¬ member p w1 ∧ hub_unregister p w1 = Done w1) ∧
  (∀ m w w1 c, inv w → member p w → heap w !! p = Some c →
     Chan.full (send c) = true → hub_broadcast m w = Done w1 →
     ¬ member p w1 ∧ heap w1 !! p = Some (set_send (shut (send c)) c) ∧
     hub_unregister p w1 = Done w1).
Proof.
  split; [apply hub_unregister_again|]. split.
  - intros w w1 H. apply hub_unregister_not_member in H as Hn.
    split; [done|]. by apply hub_unregister_again.
  - intros m w w1 c Hi Hm Hc Hfull Hb.
    destruct (hub_broadcast_spec m w Hi) as (w' & Hb' & _ & _ & _ & Hf & _).
    rewrite Hb in Hb'. injection Hb' as <-.
    destruct (Hf p c) as [H1 H2]; try done.
    assert (¬ member p w1) as Hn.
    { unfold member. rewrite H1. by intros [? ?]. }
    split; [done|]. split; [done|]. by apply hub_unregister_again.
Qed.

(** C10.  Registering a connection that is already a member leaves the set
    of members, the heap (hence every queue) and the pumps as they are; on
    a well-formed world, where the stored values are all [true], the world
    is unchanged altogether. *)
Theorem register_idempotent p w :
  member p w →
  dom (clients (hub_register p w)) = dom (clients w) ∧
  heap (hub_register p w) = heap w ∧
  writers (hub_register p w) = writers w ∧
  readers (hub_register p w) = readers w ∧
  (clients w !! p = Some true → hub_register p w = w) ∧
  (inv w → hub_register p w = w).
Proof.
  intros [b Hm].
  assert (Hid : clients w !! p = Some true → hub_register p w = w).
  { intros Ht. unfold hub_register, set_clients. rewrite insert_id by done.
    by destruct w. }
  split.
  { simpl. rewrite dom_insert_L. apply elem_of_dom_2 in Hm. set_solver. }
  do 3 (split; [done|]). split; [done|].
  intros Hi. apply Hid. by rewrite Hm, (inv_true w Hi p b Hm).
Qed.

(* ===================================================================== *)
(** ** Identities *)
(* ===================================================================== *)

Lemma outcome_bind_mret {A} (x : outcome A) : x ≫= mret = x.
Proof. by destruct x. Qed.

Lemma serveWS_client q t0 w :
  heap (serveWS true q t0 w) !! fresh (dom (heap w))
  = Some {| conn := {| calls := []; conn_closed := false |};
            username := if String.eqb q "" then fallback t0 else q;
            send := Chan.make 256 |}.
Proof. unfold serveWS. simpl. by rewrite lookup_insert_eq. Qed.

(** The name bound by [serveWS] stays with the client whatever happens
    afterwards. *)
Lemma bound_username q t0 w es w' :
  inv w → run es (serveWS true q t0 w) = Done w' →
  ∃ c, heap w' !! fresh (dom (heap w)) = Some c ∧
       username c = if String.eqb q "" then fallback t0 else q.
Proof.
  intros Hi Hrun.
  destruct (run_frame es _ w' _ _ (serveWS_inv true q t0 w Hi) Hrun
              (serveWS_client q t0 w)) as (c & Hc & Hu & _).
  by exists c.
Qed.

Example fallback_2023 : fallback 1700000123000000000 = "User123"%string.
Proof. vm_compute. reflexivity. Qed.

Example fallback_1969 : fallback (-5000000000) = "User-5"%string.
Proof. vm_compute. reflexivity. Qed.

(** C4.  Whatever happened since a connection was admitted, the message its
    read pump hands to the hub for a decoded submission carries the name
    bound by [serveWS] at admission and the server's clock reading; of the
    decoded wire message only [Content] is used. *)
Theorem identity_stamping q t0 w es w' :
  inv w → run es (serveWS true q t0 w) = Done w' →
  ∃ c, heap w' !! fresh (dom (heap w)) = Some c ∧
    ∀ wire now,
      let stamped :=
        {| Username := if String.eqb q "" then fallback t0 else q;
           Content := Content wire;
           Timestamp := now |} in
      readPump (fresh (dom (heap w))) c (Some wire) now = Broadcast stamped ∧
      (fresh (dom (heap w)) ∈ readers w' →
       step (Read (fresh (dom (heap w))) (Some wire) now) w'
       = hub_broadcast stamped w').
Proof.
  intros Hi Hrun.
  destruct (bound_username q t0 w es w' Hi Hrun) as (c & Hc & Hu).
  exists c. split; [done|]. intros wire now. simpl. rewrite Hu.
  split; [done|]. intros Hr. rewrite decide_True by done.
  rewrite (deref_Some _ _ c) by done. simpl. rewrite Hu.
  apply outcome_bind_mret.
Qed.

Lemma identity_stamping_witness :
  ∃ c, heap alice_bob !! fresh (dom (heap newHub)) = Some c ∧
    ∀ wire now,
      let stamped :=
        {| Username := if String.eqb "Alice" "" then fallback 1000000000
                       else "Alice";
           Content := Content wire;
           Timestamp := now |} in
      readPump (fresh (dom (heap newHub))) c (Some wire) now
      = Broadcast stamped ∧
      (fresh (dom (heap newHub)) ∈ readers alice_bob →
       step (Read (fresh (dom (heap newHub))) (Some wire) now) alice_bob
       = hub_broadcast stamped alice_bob).
Proof.
  apply (identity_stamping "Alice" 1000000000 newHub
           [Serve true "Bob" 2000000000] alice_bob).
  - apply newHub_inv.
  - reflexivity.
Defined.

Example stamping_ignores_wire_identity :
  run_queue [Read 0%nat (Some hi) 5000000000] alice_bob 1%nat
  = Some ([{| Username := "Alice"; Content := "hi";
              Timestamp := 5000000000 |}], false).
Proof. vm_compute. reflexivity. Qed.

(** C9.  A request without a username gets the name [fallback], made from
    the clock.  The connection is built, registered and given its two pumps
    exactly as if that name had been supplied in the request, and the name
    is the one stamped on every message the connection submits later. *)
Theorem fallback_identity t0 w es w' :
  inv w → run es (serveWS true "" t0 w) = Done w' →
  heap (serveWS true "" t0 w) !! fresh (dom (heap w))
  = Some {| conn := {| calls := []; conn_closed := false |};
            username := fallback t0;
            send := Chan.make 256 |} ∧
  member (fresh (dom (heap w))) (serveWS true "" t0 w) ∧
  fresh (dom (heap w)) ∈ writers (serveWS true "" t0 w) ∧
  fresh (dom (heap w)) ∈ readers (serveWS true "" t0 w) ∧
  serveWS true "" t0 w = serveWS true (fallback t0) t0 w ∧
  ∃ c, heap w' !! fresh (dom (heap w)) = Some c ∧
    username c = fallback t0 ∧
    ∀ wire now,
      readPump (fresh (dom (heap w))) c (Some wire) now
      = Broadcast {| Username := fallback t0; Content := Content wire;
                     Timestamp := now |}.
Proof.
  intros Hi Hrun. split; [apply serveWS_client|].
  split. { unfold member. simpl. rewrite lookup_insert_eq. by eexists. }
  split. { simpl. set_solver. }
  split. { simpl. set_solver. }
  split; [done|].
  destruct (bound_username "" t0 w es w' Hi Hrun) as (c & Hc & Hu).
  exists c. split; [done|]. split; [done|]. intros wire now. simpl.
  by rewrite Hu.
Qed.

Lemma fallback_identity_witness :
  run_queue [Serve true "" 1700000123000000000; Read 0%nat (Some hi) 7]
    newHub 0%nat
  = Some ([{| Username := "User123"; Content := "hi"; Timestamp := 7 |}],
          false) ∧
  ∃ c, heap (serveWS true "" 1700000123000000000 newHub)
         !! fresh (dom (heap newHub)) = Some c ∧
       username c = fallback 1700000123000000000.
Proof.
  split; [vm_compute; reflexivity|].
  destruct (fallback_identity 1700000123000000000 newHub []
              (serveWS true "" 1700000123000000000 newHub))
    as (_ & _ & _ & _ & _ & c & Hc & Hu & _).
  - apply newHub_inv.
  - reflexivity.
  - by exists c.
Defined.

(* ===================================================================== *)
(** ** Order *)
(* ===================================================================== *)

Lemma announced_read q msg now w cq :
  heap w !! q = Some cq →
  announced (Read q (Some msg) now) w
  = [{| Username := username cq; Content := Content msg; Timestamp := now |}].
Proof. intros H. simpl. by rewrite H. Qed.

Lemma step_read_alloc q r now w w' :
  step (Read q r now) w = Done w' → is_Some (heap w !! q).
Proof.
  simpl. case_decide; [|done].
  destruct (heap w !! q) eqn:Hq; [by eexists|]. by rewrite deref_None.
Qed.

(** The order in which two submissions enter the queue of a connection
    that is a member through both fan-outs. *)
Lemma enqueue_order q1 x1 t1 mid q2 x2 t2 w w' p c :
  inv w → heap w !! p = Some c →
  run (Read q1 (Some x1) t1 :: mid ++ [Read q2 (Some x2) t2]) w = Done w' →
  member p w' →
  ∃ c' c1 u2 between,
    member p w ∧ heap w' !! p = Some c' ∧ heap w !! q1 = Some c1 ∧
    taken c' ++ buf (send c')
    = (taken c ++ buf (send c))
      ++ {| Username := username c1; Content := Content x1; Timestamp := t1 |}
      :: between
      ++ [{| Username := u2; Content := Content x2; Timestamp := t2 |}].
Proof.
  intros Hi Hc Hrun Hm.
  destruct (run_frame _ w w' p c Hi Hrun Hc) as (c' & Hc' & _ & _ & Hs & _).
  destruct (Hs Hm) as [Hmw Hstream].
  change (Read q1 (Some x1) t1 :: mid ++ [Read q2 (Some x2) t2])
    with ([Read q1 (Some x1) t1] ++ mid ++ [Read q2 (Some x2) t2])
    in Hrun, Hstream.
  rewrite run_app in Hrun.
  apply outcome_bind_Done in Hrun as (w1 & Hr1 & Hrun).
  rewrite run_app in Hrun.
  apply outcome_bind_Done in Hrun as (w2 & Hr2 & Hr3).
  rewrite (announcements_app _ _ w w1 Hr1) in Hstream.
  rewrite (announcements_app _ _ w1 w2 Hr2) in Hstream.
  destruct (step_read_alloc q1 (Some x1) t1 w w1) as [c1 Hc1].
  { by rewrite <- run_singleton. }
  destruct (step_read_alloc q2 (Some x2) t2 w2 w') as [c2 Hc2].
  { by rewrite <- run_singleton. }
  exists c', c1, (username c2), (announcements mid w1).
  split; [done|]. split; [done|]. split; [done|].
  fold (stream c') (stream c). rewrite Hstream.
  assert (announcements [Read q1 (Some x1) t1] w
          = [{| Username := username c1; Content := Content x1;
                Timestamp := t1 |}]) as ->.
  { unfold announcements. rewrite (announced_read _ _ _ _ c1 Hc1).
    by destruct (step _ w). }
  assert (announcements [Read q2 (Some x2) t2] w2
          = [{| Username := username c2; Content := Content x2;
                Timestamp := t2 |}]) as ->.
  { unfold announcements. rewrite (announced_read _ _ _ _ c2 Hc2).
    by destruct (step _ w2). }
  done.
Qed.

(* ===================================================================== *)
(** ** Removal *)
(* ===================================================================== *)

Lemma step_write p ok w w1 rs :
  p ∈ writers w → writePump p ok w = Done (w1, rs) →
  step (Write p ok) w = Done w1.
Proof. intros H Hp. simpl. rewrite decide_True by done. by rewrite Hp. Qed.

(** Once its queue is closed, a running write pump whose writes succeed
    sends what is left in the queue, then the close message, and returns,
    closing the connection; it needs one turn per queued message and one
    more. *)
Lemma writePump_drains p w c :
  heap w !! p = Some c → closed (send c) = true → p ∈ writers w →
  ∃ w3 c3,
    run (replicate (S (length (buf (send c)))) (Write p true)) w = Done w3 ∧
    (p ∉ writers w3) ∧ heap w3 !! p = Some c3 ∧
    conn_closed (conn c3) = true ∧
    calls (conn c3)
    = calls (conn c) ++ ((λ m, (JSONFrame m, true)) <$> buf (send c))
      ++ [(CloseFrame, true)].
Proof.
  remember (buf (send c)) as l eqn:Hl. revert w c Hl.
  induction l as [|m rest IH]; intros w c Hl Hc Hcl Hw.
  - destruct (writePump_drained p true w c) as (c' & Hp & _ & _ & Hk & Hcc);
      try done.
    eexists _, c'.
    change (replicate (S (length [])) (Write p true)) with [Write p true].
    rewrite run_singleton. split; [by eapply step_write|]. simpl.
    split; [set_solver|]. by rewrite lookup_insert_eq.
  - destruct (writePump_message p true w c m rest) as (c' & Hp & _ & Hs & Hk & _);
      try done.
    destruct (IH (set_client p c' w) c') as (w3 & c3 & Hrun & Hnw & Hc3 & Hcc & Hcalls).
    + by rewrite Hs.
    + simpl. by rewrite lookup_insert_eq.
    + by rewrite Hs.
    + done.
    + exists w3, c3.
      change (replicate (S (length (m :: rest))) (Write p true))
        with (Write p true :: replicate (S (length rest)) (Write p true)).
      cbn [run]. rewrite (step_write p true w _ _ Hw Hp). simpl.
      split; [exact Hrun|]. do 3 (split; [done|]).
      rewrite Hcalls, Hk, <- app_assoc. done.
Qed.

(** C7.  Unregistering a member deletes it from the map and closes its
    queue, leaving the queued messages in place.  From then on, whatever
    happens, the connection is not a member, its queue stays closed, and no
    message is added to it: the messages that ever entered the queue are
    those that had entered it before the removal.  The closed queue makes
    the write pump, if it is still running, send what is left, then the
    close message, and return, closing the connection. *)
Theorem remove_closes_queue p w :
  inv w → member p w →
  ∃ c w1,
    heap w !! p = Some c ∧ hub_unregister p w = Done w1 ∧
    ¬ member p w1 ∧ heap w1 !! p = Some (set_send (shut (send c)) c) ∧
    (∀ es w2, run es w1 = Done w2 →
       ∃ c2, heap w2 !! p = Some c2 ∧ ¬ member p w2 ∧
             closed (send c2) = true ∧ stream c2 = stream c) ∧
    (p ∈ writers w →
       ∃ w3 c3,
         run (replicate (S (length (buf (send c)))) (Write p true)) w1
         = Done w3 ∧
         (p ∉ writers w3) ∧ heap w3 !! p = Some c3 ∧
         conn_closed (conn c3) = true ∧
         calls (conn c3)
         = calls (conn c) ++ ((λ m, (JSONFrame m, true)) <$> buf (send c))
           ++ [(CloseFrame, true)]).
Proof.
  intros Hi Hm.
  destruct (hub_unregister_spec p w Hi)
    as (w1 & Hu & Hw & _ & Hcl & _ & Hmem & _).
  destruct (Hmem Hm) as (c & Hc & Ho & Hc1).
  assert (Hi1 : inv w1) by (by eapply hub_unregister_inv).
  assert (Hn1 : ¬ member p w1).
  { unfold member. rewrite Hcl, lookup_delete_eq. by intros [? ?]. }
  exists c, w1. do 4 (split; [done|]). split.
  - intros es w2 Hrun.
    destruct (run_frame es w1 w2 p _ Hi1 Hrun Hc1) as (c2 & Hc2 & _ & _ & _ & Hn).
    destruct (Hn Hn1) as [Hn2 Hs]. exists c2. do 2 (split; [done|]).
    split; [|done].
    pose proof (inv_open w2 (run_inv es w1 w2 Hi1 Hrun) p c2 Hc2) as Hiff.
    destruct (closed (send c2)); [done|]. destruct Hn2. by apply Hiff.
  - intros Hpw.
    destruct (writePump_drains p w1 (set_send (shut (send c)) c))
      as (w3 & c3 & ? & ? & ? & ? & ?); try done.
    { by rewrite Hw. }
    by exists w3, c3.
Qed.

(* ===================================================================== *)
(** ** The membership invariant *)
(* ===================================================================== *)

Lemma step_mutation e w w' p :
  inv w → step e w = Done w' → clients w' !! p ≠ clients w !! p →
  mutation e w w' p.
Proof.
  intros Hi Hstep Hne. destruct e as [ok q now|q r now|q ok]; simpl in Hstep.
  - injection Hstep as <-. destruct ok; [|done]. simpl in Hne.
    destruct (decide (p = fresh (dom (heap w)))) as [->|Hp].
    + eapply Inserted; [done..| |by simpl; rewrite lookup_insert_eq].
      destruct (clients w !! fresh (dom (heap w))) as [b|] eqn:E; [|done].
      destruct (inv_alloc w Hi (fresh (dom (heap w)))) as [c Hc];
        [by exists b|].
      by rewrite fresh_heap_None in Hc.
    + by rewrite lookup_insert_ne in Hne.
  - case_decide; [|done].
    destruct (heap w !! q) as [cq|] eqn:Hq;
      [rewrite (deref_Some q w cq) in Hstep by done
      |by rewrite deref_None in Hstep].
    simpl in Hstep. destruct r as [msg|]; simpl in Hstep.
    + apply outcome_bind_Done in Hstep as (w1 & Hb & [= <-]).
      destruct (hub_broadcast_spec {| Username := username cq;
        Content := Content msg; Timestamp := now |} w Hi)
        as (w2 & Hb' & _ & _ & Ha & Hf & Hn).
      rewrite Hb in Hb'. injection Hb' as <-.
      destruct (decide (member p w)) as [Hm|Hnm].
      * destruct (inv_alloc w Hi p Hm) as [c Hc].
        destruct (Chan.full (send c)) eqn:Hfull.
        -- destruct (Hf p c) as [H1 _]; try done. by eapply Evicted.
        -- destruct (Ha p c) as [H1 _]; done.
      * by destruct (Hn p Hnm).
    + apply outcome_bind_Done in Hstep as (w1 & Hu & Hstep).
      apply outcome_bind_Done in Hstep as (c1 & Hd & [= <-]).
      destruct (hub_unregister_spec q w Hi) as (w2 & Hu' & _ & _ & Hcl & _).
      rewrite Hu in Hu'. injection Hu' as <-. simpl in Hne. rewrite Hcl in Hne.
      destruct (decide (p = q)) as [->|Hp].
      * rewrite lookup_delete_eq in Hne. eapply Removed; [done| |].
        -- unfold member. by destruct (clients w !! q).
        -- simpl. by rewrite Hcl, lookup_delete_eq.
      * by rewrite lookup_delete_ne in Hne.
  - case_decide; [|done].
    apply outcome_bind_Done in Hstep as ([w1 rs] & Hw & [= <-]).
    destruct (writePump_silent q ok w w1 rs Hw) as (_ & Hcl & _).
    by rewrite Hcl in Hne.
Qed.

Lemma newHub_pumps_alloc : pumps_alloc newHub.
Proof. intros p Hp. simpl in Hp. set_solver. Qed.

(** Every world the server can reach is well formed, and no run of the
    server panics. *)
Lemma reachable_inv es w :
  run es newHub = Done w → inv w ∧ pumps_alloc w.
Proof.
  intros Hrun. split.
  - by apply (run_inv es newHub w newHub_inv).
  - by apply (run_pumps_alloc es newHub w newHub_inv newHub_pumps_alloc).
Qed.

Lemma server_never_panics es : run es newHub ≠ Panics.
Proof. apply run_no_panic; [apply newHub_inv|apply newHub_pumps_alloc]. Qed.

(** C6.  The membership invariant [inv] (the keys of the map are allocated
    clients, and an allocated client is a key exactly when its queue is
    open) is preserved by every step, and no step panics.  A step changes
    the map at a key in one of three ways only: [serveWS] has the hub insert
    a fresh client, an unregister request deletes a member, or a broadcast
    deletes a member whose queue is full.  Each of these is one step, so
    every fan-out starts from, and ends in, a world that satisfies the
    invariant. *)
Theorem membership_invariant e w :
  inv w → pumps_alloc w →
  step e w ≠ Panics ∧
  ∀ w', step e w = Done w' →
    inv w' ∧ pumps_alloc w' ∧
    ∀ p, clients w' !! p ≠ clients w !! p → mutation e w w' p.
Proof.
  intros Hi Hp. split; [by apply step_no_panic|].
  intros w' Hstep. split; [by eapply step_inv|].
  split; [by eapply step_pumps_alloc|].
  intros p. by apply step_mutation.
Qed.

(* ===================================================================== *)
(** ** Write failures *)
(* ===================================================================== *)

Lemma elem_of_read_failure p es :
  (∃ now, Read p None now ∈ es) ↔ existsb (is_read_failure p) es = true.
Proof.
  rewrite existsb_exists. split.
  - intros [now Hin]. exists (Read p None now).
    split; [by apply list_elem_of_In|]. simpl. by apply bool_decide_eq_true.
  - intros ([ok q now|q [msg|] now|q ok] & Hin & Hb); simpl in Hb; try done.
    apply bool_decide_eq_true in Hb as ->. exists now.
    by apply list_elem_of_In.
Qed.

(** A member that is no longer one at the end of a run was removed by an
    event of the run: a failed read of its own read pump, or a broadcast that
    found its queue full. *)
Lemma run_removal es w w' p :
  inv w → run es w = Done w' → member p w → ¬ member p w' →
  ∃ e w1 w2, e ∈ es ∧ inv w1 ∧ step e w1 = Done w2 ∧
    member p w1 ∧ ¬ member p w2.
Proof.
  revert w. induction es as [|e es IH]; intros w Hi; simpl.
  - intros [= <-] Hm Hn. by destruct Hn.
  - intros (w1 & Hs & Hr)%outcome_bind_Done Hm Hn.
    destruct (decide (member p w1)) as [Hm1|Hn1].
    + destruct (IH w1 (step_inv e w w1 Hi Hs) Hr Hm1 Hn)
        as (e' & wa & wb & Hin & ?).
      exists e', wa, wb. split; [by right|done].
    + exists e, w, w1. split; [by left|done].
Qed.

(** C8, as the code has it.  When the write of a message fails, the turn of
    [writePump] sends nothing to the hub, leaves the map as it is, returns
    and closes the connection; the queue is not closed.  The connection
    leaves the map only by a later step of the hub, which is either the
    unregister request that [readPump] issues when its read fails, or a
    broadcast that finds the queue, which nobody drains any more, full. *)
Theorem write_failure_leaves_membership p w c m rest :
  heap w !! p = Some c → buf (send c) = m :: rest →
  ∃ w0 c0,
    writePump p false w = Done (w0, []) ∧
    (p ∉ writers w0) ∧ clients w0 = clients w ∧
    heap w0 !! p = Some c0 ∧ conn_closed (conn c0) = true ∧
    closed (send c0) = closed (send c) ∧
    (∀ now, readPump p c0 None now = Unregister p) ∧
    (∀ e w1 w2, inv w1 → step e w1 = Done w2 →
       member p w1 → ¬ member p w2 →
       (∃ now, e = Read p None now) ∨
       (∃ q msg now c1, e = Read q (Some msg) now ∧
          heap w1 !! p = Some c1 ∧ Chan.full (send c1) = true)) ∧
    (∀ es w', inv w0 → run es w0 = Done w' →
       member p w0 → ¬ member p w' →
       existsb (is_read_failure p) es = true ∨
       existsb is_submission es = true).
Proof.
  intros Hc Hb.
  destruct (writePump_message p false w c m rest Hc Hb)
    as (c0 & Hw & _ & Hs & _ & Hcc).
  assert (Hstep : ∀ e w1 w2, inv w1 → step e w1 = Done w2 →
       member p w1 → ¬ member p w2 →
       (∃ now, e = Read p None now) ∨
       (∃ q msg now c1, e = Read q (Some msg) now ∧
          heap w1 !! p = Some c1 ∧ Chan.full (send c1) = true)).
  { intros e w1 w2 Hi Hst Hm Hn.
    destruct (step_mutation e w1 w2 p Hi Hst)
      as [q now -> _ Hnone _|now -> _ _|q msg now c1 -> _ Hc1 Hf _].
    - intros Heq. apply Hn. unfold member. rewrite Heq. exact Hm.
    - destruct Hm as [? Hm]. congruence.
    - left. by exists now.
    - right. by exists q, msg, now, c1. }
  exists (stop_writer p (set_client p c0 w)), c0.
  split; [done|]. split; [simpl; set_solver|]. split; [done|].
  split; [by simpl; rewrite lookup_insert_eq|]. split; [done|].
  split; [by rewrite Hs|]. split; [done|]. split; [done|].
  intros es w' Hi Hrun Hm Hn.
  destruct (run_removal es _ w' p Hi Hrun Hm Hn)
    as (e & w1 & w2 & Hin & Hi1 & Hst & Hm1 & Hn2).
  destruct (Hstep e w1 w2 Hi1 Hst Hm1 Hn2) as [[now ->]|(q & msg & now & c1 & -> & _)].
  - left. apply elem_of_read_failure. by exists now.
  - right. apply existsb_exists. eexists. split; [by apply list_elem_of_In|done].
Qed.

(* ===================================================================== *)
(** ** The theorems at work *)
(* ===================================================================== *)

Lemma alice_bob_run :
  run [Serve true "Alice" 1000000000; Serve true "Bob" 2000000000] newHub
  = Done alice_bob.
Proof. reflexivity. Qed.

Lemma alice_bob_pumps_alloc : pumps_alloc alice_bob.
Proof. apply (reachable_inv _ _ alice_bob_run). Qed.

Lemma saturated_pumps_alloc : pumps_alloc saturated.
Proof.
  apply (run_pumps_alloc _ _ _ alice_bob_inv alice_bob_pumps_alloc
           saturated_run).
Qed.

Lemma alice_member : member 0%nat alice_bob.
Proof. apply alice_bob_members. compute_done. Qed.

Lemma one_sent_run : run (chatter 1) alice_bob = Done one_sent.
Proof. vm_compute. reflexivity. Qed.

Lemma one_sent_inv : inv one_sent.
Proof. apply (run_inv _ _ _ alice_bob_inv one_sent_run). Qed.

Lemma one_sent_alice : heap one_sent !! 0%nat = Some alice_one.
Proof. vm_compute. reflexivity. Qed.

Lemma alice_evicted : ¬ member 0%nat evicted.
Proof.
  unfold member. assert (clients evicted !! 0%nat = None) as ->
    by (vm_compute; reflexivity). by intros [? ?].
Qed.

(** C8, as it is stated, fails.  Alice's write pump fails to write and
    returns.  Bob goes on talking; nobody drains Alice's queue, and the 257th
    message finds it full: the hub evicts Alice, though her read pump never
    failed and never asked for her removal. *)
Lemma write_failure_then_eviction :
  inv one_sent ∧ member 0%nat one_sent ∧
  writePump 0%nat false one_sent = Done (write_failed, []) ∧
  member 0%nat write_failed ∧
  run after_write_failure write_failed = Done evicted ∧
  ¬ member 0%nat evicted ∧
  ∀ now, Read 0%nat None now ∉ after_write_failure.
Proof.
  split; [apply one_sent_inv|].
  split. { unfold member. by assert (clients one_sent !! 0%nat = Some true)
             as -> by (vm_compute; reflexivity). }
  split; [vm_compute; reflexivity|].
  split. { unfold member. by assert (clients write_failed !! 0%nat = Some true)
             as -> by (vm_compute; reflexivity). }
  split; [vm_compute; reflexivity|].
  split; [apply alice_evicted|].
  intros now Hin.
  assert (existsb (is_read_failure 0%nat) after_write_failure = true) as H.
  { apply elem_of_read_failure. by exists now. }
  vm_compute in H. discriminate.
Qed.

Lemma write_failure_leaves_membership_witness :
  ∃ w0 c0,
    writePump 0%nat false one_sent = Done (w0, []) ∧
    (0%nat ∉ writers w0) ∧ clients w0 = clients one_sent ∧
    heap w0 !! 0%nat = Some c0 ∧ conn_closed (conn c0) = true ∧
    closed (send c0) = false.
Proof.
  destruct (write_failure_leaves_membership 0%nat one_sent alice_one
              {| Username := "Bob"; Content := "hi"; Timestamp := 3000000000 |}
              [])
    as (w0 & c0 & ? & ? & ? & ? & ? & ? & _).
  - apply one_sent_alice.
  - reflexivity.
  - by exists w0, c0.
Defined.

Lemma remove_idempotent_witness :
  hub_unregister 0%nat evicted = Done evicted.
Proof.
  apply (proj1 (remove_idempotent 0%nat) evicted), alice_evicted.
Defined.

Lemma register_idempotent_witness :
  dom (clients (hub_register 0%nat alice_bob)) = dom (clients alice_bob) ∧
  heap (hub_register 0%nat alice_bob) = heap alice_bob ∧
  hub_register 0%nat alice_bob = alice_bob.
Proof.
  destruct (register_idempotent 0%nat alice_bob alice_member)
    as (Hd & Hh & _ & _ & _ & Hw).
  split; [exact Hd|]. split; [exact Hh|]. apply Hw, alice_bob_inv.
Defined.

Lemma membership_invariant_witness :
  step (Read 1%nat (Some hi) 4000000000) saturated ≠ Panics ∧
  ∀ w', step (Read 1%nat (Some hi) 4000000000) saturated = Done w' →
    inv w' ∧ pumps_alloc w' ∧
    ∀ p, clients w' !! p ≠ clients saturated !! p →
      mutation (Read 1%nat (Some hi) 4000000000) saturated w' p.
Proof.
  apply (membership_invariant (Read 1%nat (Some hi) 4000000000) saturated).
  - apply saturated_inv.
  - apply saturated_pumps_alloc.
Defined.

Lemma remove_closes_queue_witness :
  ∃ c w1,
    heap alice_bob !! 0%nat = Some c ∧
    hub_unregister 0%nat alice_bob = Done w1 ∧
    ¬ member 0%nat w1 ∧
    heap w1 !! 0%nat = Some (set_send (shut (send c)) c).
Proof.
  destruct (remove_closes_queue 0%nat alice_bob alice_bob_inv alice_member)
    as (c & w1 & ? & ? & ? & ? & _).
  by exists c, w1.
Defined.

Example removed_gets_nothing :
  run_queue [Read 0%nat None 3000000000; Read 1%nat (Some hi) 4000000000;
             Write 0%nat true]
    alice_bob 0%nat
  = Some ([], true).
Proof. vm_compute. reflexivity. Qed.

Lemma conversation_run :
  run (Read 0%nat (Some hi) 5000000000
       :: [Write 1%nat true; Read 1%nat (Some hi) 6000000000]
       ++ [Read 0%nat (Some hi) 7000000000]) alice_bob
  = Done conversation.
Proof. vm_compute. reflexivity. Qed.

Lemma conversation_bob : member 1%nat conversation.
Proof.
  unfold member. by assert (clients conversation !! 1%nat = Some true) as ->
    by (vm_compute; reflexivity).
Qed.

Lemma alice_bob_bob : heap alice_bob !! 1%nat = Some bob.
Proof. vm_compute. reflexivity. Qed.

Example conversation_stream :
  stream <$> heap conversation !! 1%nat
  = Some [ {| Username := "Alice"; Content := "hi"; Timestamp := 5000000000 |};
           {| Username := "Bob"; Content := "hi"; Timestamp := 6000000000 |};
           {| Username := "Alice"; Content := "hi"; Timestamp := 7000000000 |} ].
Proof. vm_compute. reflexivity. Qed.

(* ===================================================================== *)
(** ** One step, seen from one client *)
(* ===================================================================== *)

Lemma shut_closed ch : closed ch = true → shut ch = ch.
Proof. destruct ch as [b k cl]. simpl. by intros ->. Qed.

Lemma writePump_writers p ok w w1 rs q :
  writePump p ok w = Done (w1, rs) → q ≠ p →
  (q ∈ writers w1 ↔ q ∈ writers w).
Proof.
  unfold writePump. destruct (deref p w) as [c| |]; [|done..]. simpl.
  destruct (Chan.recv (send c)) as [[[m|] ch]| |]; simpl; [| |done..].
  - destruct ok; intros [= <- <-] Hq; simpl; set_solver.
  - intros [= <- <-] Hq; simpl; set_solver.
Qed.

Lemma step_client e w w' p c :
  inv w → step e w = Done w' → heap w !! p = Some c →
  ∃ c', heap w' !! p = Some c' ∧ username c' = username c ∧
    (p ∈ readers w' → p ∈ readers w) ∧
    client_step e w w' p c c'.
Proof.
  intros Hi Hstep Hc. destruct e as [ok q now|q r now|q ok]; simpl in Hstep.
  - injection Hstep as <-. unfold serveWS. destruct ok; simpl.
    + assert (p ≠ fresh (dom (heap w))).
      { intros ->. by rewrite fresh_heap_None in Hc. }
      exists c. rewrite lookup_insert_ne by done. split; [done|].
      split; [done|]. split; [set_solver|]. apply CsSame; [done..|].
      simpl. set_solver.
    + exists c. do 3 (split; [done|]). by apply CsSame.
  - case_decide as Hqr; [|done].
    destruct (heap w !! q) as [cq|] eqn:Hq;
      [rewrite (deref_Some q w cq) in Hstep by done
      |by rewrite deref_None in Hstep].
    simpl in Hstep. destruct r as [msg|]; simpl in Hstep.
    + apply outcome_bind_Done in Hstep as (w1 & Hb & [= <-]).
      set (m := {| Username := username cq; Content := Content msg;
                   Timestamp := now |}) in *.
      destruct (hub_broadcast_spec m w Hi) as (w2 & Hb' & Hw & Hr & Ha & Hf & Hn).
      rewrite Hb in Hb'. injection Hb' as <-.
      destruct (decide (member p w)) as [Hm|Hnm].
      * pose proof (proj1 (inv_open w Hi p c Hc) Hm) as Ho.
        destruct (Chan.full (send c)) eqn:Hfull.
        -- destruct (Hf p c) as [_ H2]; try done. eexists. split; [done|].
           split; [done|]. split; [by rewrite Hr|].
           eapply CsEvict; try done. by rewrite Hw.
        -- destruct (Ha p c) as [_ H2]; try done. eexists. split; [done|].
           split; [done|]. split; [by rewrite Hr|].
           eapply CsPush; try done. by rewrite Hw.
      * destruct (Hn p Hnm) as [_ H2]. exists c. rewrite H2.
        do 2 (split; [done|]). split; [by rewrite Hr|].
        apply CsSame; try done. by rewrite Hw.
    + apply outcome_bind_Done in Hstep as (w1 & Hu & Hstep).
      apply outcome_bind_Done in Hstep as (c1 & Hd & [= <-]).
      destruct (hub_unregister_spec q w Hi)
        as (w2 & Hu' & Hw & Hr & Hcl & Hh & Hm & Hn).
      rewrite Hu in Hu'. injection Hu' as <-. simpl.
      destruct (decide (p = q)) as [->|Hne].
      * rewrite lookup_insert_eq. eexists. split; [done|].
        unfold deref in Hd. destruct (heap w1 !! q) as [c1'|] eqn:Hq1; [|done].
        injection Hd as ->.
        assert (c1 = set_send (shut (send c)) c) as ->.
        { destruct (decide (member q w)) as [Hmq|Hnq].
          - destruct (Hm Hmq) as (c0 & Hc0 & _ & Hc1). congruence.
          - rewrite (Hn Hnq) in Hq1. assert (c1 = c) as -> by congruence.
            assert (closed (send c) = true) as Hcl'.
            { destruct (closed (send c)) eqn:E; [done|]. destruct Hnq.
              by apply (inv_open w Hi q c Hc). }
            rewrite (shut_closed _ Hcl'). by destruct c. }
        simpl. split; [done|]. split; [rewrite Hr; set_solver|].
        eapply CsRemove; try done; simpl; [by rewrite Hw|set_solver].
      * rewrite lookup_insert_ne, Hh by done. exists c.
        split; [done|]. split; [done|]. split; [rewrite Hr; set_solver|].
        apply CsSame; try done. simpl. by rewrite Hw.
  - case_decide as Hqw; [|done].
    apply outcome_bind_Done in Hstep as ([w1 rs] & Hw & [= <-]).
    destruct (writePump_silent q ok w w1 rs Hw) as (_ & _ & Hr & Hh).
    destruct (decide (p = q)) as [->|Hne].
    + destruct (buf (send c)) as [|m rest] eqn:Hb.
      * destruct (closed (send c)) eqn:Hcl;
          [|by rewrite (writePump_parked q ok w c) in Hw].
        destruct (writePump_drained q ok w c) as (c' & Hw' & Hu & Hs & Hk & Hcc);
          try done.
        rewrite Hw in Hw'. injection Hw' as ->. exists c'. simpl.
        rewrite lookup_insert_eq. do 3 (split; [done|]).
        eapply CsCloseFrame; try done. simpl. set_solver.
      * destruct (writePump_message q ok w c m rest) as (c' & Hw' & Hu & Hs & Hk & Hcc);
          try done.
        rewrite Hw in Hw'. exists c'.
        assert (heap w1 !! q = Some c' ∧ (q ∈ writers w1 ↔ ok = true))
          as [-> Hiff].
        { destruct ok; injection Hw' as ->; simpl;
            rewrite lookup_insert_eq; (split; [done|]); set_solver. }
        do 2 (split; [done|]). split; [by rewrite Hr|]. by eapply CsWrite.
    + exists c. rewrite Hh by done. do 2 (split; [done|]).
      split; [by rewrite Hr|].
      apply CsSame; [done..|]. by eapply writePump_writers.
Qed.

(** A client that appears in a step was built by [serveWS] in that step. *)
Lemma step_new e w w' p c' :
  inv w → step e w = Done w' → heap w !! p = None → heap w' !! p = Some c' →
  ∃ q now, e = Serve true q now ∧ p = fresh (dom (heap w)) ∧
    c' = {| conn := {| calls := []; conn_closed := false |};
            username := if String.eqb q "" then fallback now else q;
            send := Chan.make 256 |} ∧
    p ∈ writers w' ∧ p ∈ readers w'.
Proof.
  intros Hi Hstep Hnone Hc'.
  assert (Hnm : ¬ member p w).
  { intros Hm. destruct (inv_alloc w Hi p Hm) as [? ?]. congruence. }
  destruct e as [ok q now|q r now|q ok]; simpl in Hstep.
  - injection Hstep as <-.
    destruct ok; [|unfold serveWS in Hc'; congruence]. exists q, now.
    destruct (decide (p = fresh (dom (heap w)))) as [->|Hne].
    + rewrite serveWS_client in Hc'. injection Hc' as <-.
      do 3 (split; [done|]). simpl. set_solver.
    + unfold serveWS in Hc'. simpl in Hc'.
      rewrite lookup_insert_ne in Hc' by done. congruence.
  - case_decide as Hqr; [|done].
    destruct (heap w !! q) as [cq|] eqn:Hq;
      [rewrite (deref_Some q w cq) in Hstep by done
      |by rewrite deref_None in Hstep].
    assert (p ≠ q) by congruence.
    simpl in Hstep. destruct r as [msg|]; simpl in Hstep.
    + apply outcome_bind_Done in Hstep as (w1 & Hb & [= <-]).
      destruct (hub_broadcast_spec {| Username := username cq;
        Content := Content msg; Timestamp := now |} w Hi)
        as (w2 & Hb' & _ & _ & _ & _ & Hn).
      rewrite Hb in Hb'. injection Hb' as <-.
      destruct (Hn p Hnm) as [_ H2]. congruence.
    + apply outcome_bind_Done in Hstep as (w1 & Hu & Hstep).
      apply outcome_bind_Done in Hstep as (c1 & Hd & [= <-]).
      destruct (hub_unregister_spec q w Hi) as (w2 & Hu' & _ & _ & _ & Hh & _).
      rewrite Hu in Hu'. injection Hu' as <-. simpl in Hc'.
      rewrite lookup_insert_ne, Hh in Hc' by done. congruence.
  - case_decide as Hqw; [|done].
    apply outcome_bind_Done in Hstep as ([w1 rs] & Hw & [= <-]).
    destruct (writePump_silent q ok w w1 rs Hw) as (_ & _ & _ & Hh).
    assert (p ≠ q).
    { intros ->. unfold writePump in Hw. by rewrite deref_None in Hw. }
    rewrite Hh in Hc' by done. congruence.
Qed.

(** Induction over the worlds a run reaches. *)
Lemma run_ind (P : World → Prop) :
  (∀ e w w', inv w → pumps_alloc w → P w → step e w = Done w' → P w') →
  ∀ es w w', inv w → pumps_alloc w → P w → run es w = Done w' → P w'.
Proof.
  intros Hs es. induction es as [|e es IH]; intros w w' Hi Hp HP; simpl.
  - by intros [= <-].
  - intros (w1 & Hs1 & Hr)%outcome_bind_Done.
    apply (IH w1); [by eapply step_inv|by eapply step_pumps_alloc| |done].
    by eapply Hs.
Qed.

(* ===================================================================== *)
(** ** Bounded backlog *)
(* ===================================================================== *)

Lemma step_bounded e w w' :
  inv w → bounded w → step e w = Done w' → bounded w'.
Proof.
  intros Hi Hb Hstep p c' Hc'.
  destruct (heap w !! p) as [c|] eqn:Hc.
  - destruct (Hb p c Hc) as [Hcap Hlen].
    destruct (step_client e w w' p c Hi Hstep Hc) as (c'' & Hc'' & _ & _ & Hcs).
    assert (c'' = c') as -> by congruence.
    destruct Hcs as [Hs _ _|q msg now cq _ _ _ _ Hfull Hs _ _
                    |q msg now _ _ _ _ Hs _ _|now _ Hs _ _ _
                    |ok m rest _ _ Hbuf Hs _ _ _|ok _ _ _ _ Hs _ _ _];
      rewrite Hs; simpl; try done.
    + split; [done|]. rewrite length_app. simpl.
      unfold Chan.full in Hfull. apply Nat.leb_gt in Hfull. lia.
    + split; [done|]. rewrite Hbuf in Hlen. simpl in Hlen. lia.
  - destruct (step_new e w w' p c' Hi Hstep Hc Hc') as (q & now & _ & _ & -> & _).
    simpl. split; [done|lia].
Qed.

Lemma newHub_bounded : bounded newHub.
Proof. intros p c H. simpl in H. by rewrite lookup_empty in H. Qed.

(** X4.  In every world the server reaches, every outbound queue has the
    capacity 256 that [serveWS] gave it and holds at most 256 messages. *)
Theorem backlog_bounded es w :
  run es newHub = Done w →
  ∀ p c, heap w !! p = Some c →
    capacity (send c) = 256%nat ∧ (length (buf (send c)) ≤ 256)%nat.
Proof.
  intros Hrun.
  apply (run_ind bounded) with (es := es) (w := newHub);
    [|apply newHub_inv|apply newHub_pumps_alloc|apply newHub_bounded|done].
  intros e w0 w1 Hi _ Hb Hs. by eapply step_bounded.
Qed.

Lemma backlog_bounded_witness :
  ∃ c, heap saturated !! 0%nat = Some c ∧
    capacity (send c) = 256%nat ∧ (length (buf (send c)) ≤ 256)%nat.
Proof.
  assert (is_Some (heap saturated !! 0%nat)) as [c Hc].
  { assert (bool_decide (is_Some (heap saturated !! 0%nat)) = true) as H
      by (vm_compute; reflexivity).
    by apply bool_decide_eq_true in H. }
  exists c. split; [done|].
  apply (backlog_bounded
           ([Serve true "Alice" 1000000000; Serve true "Bob" 2000000000]
            ++ chatter 256) saturated) with (p := 0%nat); [|done].
  rewrite run_app, alice_bob_run. apply saturated_run.
Defined.

(* ===================================================================== *)
(** ** What reaches the peer *)
(* ===================================================================== *)

Lemma step_wire_ok e w w' :
  inv w → wire_ok w → step e w = Done w' → wire_ok w'.
Proof.
  intros Hi Hw Hstep p c' Hc'.
  destruct (heap w !! p) as [c|] eqn:Hc.
  - destruct (Hw p c Hc) as [Hrun Hret].
    destruct (step_client e w w' p c Hi Hstep Hc) as (c'' & Hc'' & _ & _ & Hcs).
    assert (c'' = c') as -> by congruence.
    destruct Hcs as [Hs Hk Hiff|q msg now cq _ _ _ Ho _ Hs Hk Hiff
                    |q msg now _ _ _ _ Hs Hk Hiff|now _ Hs Hk Hiff _
                    |ok m rest _ Hpw Hbuf Hs Hk Hcc Hiff
                    |ok _ Hpw _ Hcl Hs Hk Hcc Hnw].
    + rewrite Hs, Hk, Hiff. done.
    + rewrite Hk, Hiff. split; [done|]. intros Hn.
      destruct (Hret Hn) as (Hcc & l & x & Hl & Hg & Hx1 & Hx2).
      split; [done|]. exists l, x. do 2 (split; [done|]). split; [|done].
      intros Hx. specialize (Hx1 Hx). congruence.
    + rewrite Hk, Hiff. split; [done|]. intros Hn.
      destruct (Hret Hn) as (Hcc & l & x & Hl & Hg & Hx1 & Hx2).
      split; [done|]. exists l, x. rewrite Hs. done.
    + rewrite Hk, Hiff. split; [done|]. intros Hn.
      destruct (Hret Hn) as (Hcc & l & x & Hl & Hg & Hx1 & Hx2).
      split; [done|]. exists l, x. rewrite Hs. done.
    + specialize (Hrun Hpw). rewrite Hk, Hcc, Hiff. split.
      * intros ->. apply Forall_app. split; [done|].
        apply Forall_singleton. by split.
      * intros Hn. destruct ok; [done|]. split; [done|].
        exists (calls (conn c)), (JSONFrame m, false). by repeat split.
    + specialize (Hrun Hpw). split; [done|]. intros _. split; [done|].
      exists (calls (conn c)), (CloseFrame, ok). rewrite Hs.
      by repeat split.
  - destruct (step_new e w w' p c' Hi Hstep Hc Hc')
      as (q & now & _ & _ & -> & Hpw & _).
    split; [by intros _; apply Forall_nil|done].
Qed.

Lemma newHub_wire_ok : wire_ok newHub.
Proof. intros p c H. simpl in H. by rewrite lookup_empty in H. Qed.

Lemma reachable_wire_ok es w : run es newHub = Done w → wire_ok w.
Proof.
  intros Hrun.
  apply (run_ind wire_ok) with (es := es) (w := newHub);
    [|apply newHub_inv|apply newHub_pumps_alloc|apply newHub_wire_ok|done].
  intros e w0 w1 Hi _ Hb Hs. by eapply step_wire_ok.
Qed.




(** X6.  In every world the server reaches, a close message on a connection
    is the last write call made on it and the only close message; it was
    written after the hub closed the queue, by a write pump that has since
    returned and closed the connection, for a client that is no longer a
    member. *)
Theorem close_message_is_last es w p c ok :
  run es newHub = Done w → heap w !! p = Some c →
  (CloseFrame, ok) ∈ calls (conn c) →
  ∃ l, calls (conn c) = l ++ [(CloseFrame, ok)] ∧ Forall good_call l ∧
    closed (send c) = true ∧ conn_closed (conn c) = true ∧
    (p ∉ writers w) ∧ ¬ member p w.
Proof.
  intros Hrun Hc Hin.
  destruct (reachable_wire_ok es w Hrun p c Hc) as [Hrunning Hout].
  assert (Hbad : ∀ l, Forall good_call l → (CloseFrame, ok) ∉ l).
  { intros l Hl Hel. rewrite Forall_forall in Hl.
    by destruct (Hl _ Hel) as [_ ?]. }
  destruct (decide (p ∈ writers w)) as [Hp|Hp].
  { by destruct (Hbad _ (Hrunning Hp)). }
  destruct (Hout Hp) as (Hcc & l & x & Hl & Hg & Hx1 & _).
  rewrite Hl in Hin. apply elem_of_app in Hin as [Hin|Hin].
  { by destruct (Hbad l Hg). }
  apply list_elem_of_singleton in Hin as <-.
  exists l. do 2 (split; [done|]).
  assert (closed (send c) = true) as Hcl by by apply Hx1.
  do 3 (split; [done|]). intros Hm.
  destruct (reachable_inv es w Hrun) as [Hi _].
  apply (inv_open w Hi p c Hc) in Hm. congruence.
Qed.

(* ===================================================================== *)
(** ** Pumps that have returned *)
(* ===================================================================== *)

Lemma step_read_running p r now w w' :
  step (Read p r now) w = Done w' → p ∈ readers w.
Proof. simpl. by case_decide. Qed.

Lemma step_write_running p ok w w' :
  step (Write p ok) w = Done w' → p ∈ writers w.
Proof. simpl. by case_decide. Qed.

Lemma step_read_failure_stops p now w w' :
  step (Read p None now) w = Done w' → p ∉ readers w'.
Proof.
  simpl. case_decide; [|done].
  intros (c & _ & (w1 & _ & (c1 & _ & [= <-])%outcome_bind_Done)
            %outcome_bind_Done)%outcome_bind_Done.
  simpl. set_solver.
Qed.

Lemma step_client_facts e w w' p c :
  inv w → step e w = Done w' → heap w !! p = Some c →
  ∃ c', heap w' !! p = Some c' ∧
    capacity (send c') = capacity (send c) ∧
    ((length (buf (send c)) ≤ capacity (send c))%nat →
     (length (buf (send c')) ≤ capacity (send c'))%nat) ∧
    (is_write p e = false → calls (conn c') = calls (conn c)) ∧
    (p ∉ writers w → (p ∉ writers w') ∧ is_write p e = false) ∧
    (p ∉ readers w → (p ∉ readers w') ∧ is_read p e = false).
Proof.
  intros Hi Hstep Hc.
  destruct (step_client e w w' p c Hi Hstep Hc) as (c' & Hc' & _ & Hrd & Hcs).
  exists c'. split; [done|].
  assert (Hread : p ∉ readers w → (p ∉ readers w') ∧ is_read p e = false).
  { intros Hn. split; [by intros ?; apply Hn, Hrd|].
    destruct e as [| q r now |]; try done. simpl.
    apply bool_decide_eq_false. intros ->.
    by apply step_read_running in Hstep. }
  assert (Hwr : p ∉ writers w → is_write p e = false).
  { intros Hn. destruct e as [| | q ok]; try done. simpl.
    apply bool_decide_eq_false. intros ->.
    by apply step_write_running in Hstep. }
  destruct Hcs as [Hs Hk Hiff|q msg now cq _ _ _ _ Hfull Hs Hk Hiff
                  |q msg now _ _ _ _ Hs Hk Hiff|now _ Hs Hk Hiff _
                  |ok m rest -> Hpw Hbuf Hs Hk _ Hiff
                  |ok -> Hpw _ _ Hs Hk _ Hnw];
    rewrite ?Hs, ?Hk; simpl.
  - repeat split; try done; try tauto; try (intros Hn; by rewrite Hiff).
  - split; [done|]. split.
    { intros _. rewrite length_app. simpl.
      unfold Chan.full in Hfull. apply Nat.leb_gt in Hfull. lia. }
    repeat split; try done; try tauto; try (intros Hn; by rewrite Hiff).
  - repeat split; try done; try tauto; try (intros Hn; by rewrite Hiff).
  - repeat split; try done; try tauto; try (intros Hn; by rewrite Hiff).
  - split; [done|]. split. { rewrite Hbuf. simpl. lia. }
    split. { rewrite bool_decide_eq_true_2 by done. done. }
    split; [done|tauto].
  - split; [done|]. split; [done|].
    split. { rewrite bool_decide_eq_true_2 by done. done. }
    split; [done|tauto].
Qed.

Lemma run_client_facts es w w' p c :
  inv w → run es w = Done w' → heap w !! p = Some c →
  ∃ c', heap w' !! p = Some c' ∧
    capacity (send c') = capacity (send c) ∧
    ((length (buf (send c)) ≤ capacity (send c))%nat →
     (length (buf (send c')) ≤ capacity (send c'))%nat) ∧
    (existsb (is_write p) es = false → calls (conn c') = calls (conn c)) ∧
    (p ∉ writers w → (p ∉ writers w') ∧ existsb (is_write p) es = false) ∧
    (p ∉ readers w → (p ∉ readers w') ∧ existsb (is_read p) es = false).
Proof.
  revert w c. induction es as [|e es IH]; intros w c Hi; simpl.
  - intros [= <-] Hc. exists c. done.
  - intros (w1 & Hs & Hr)%outcome_bind_Done Hc.
    destruct (step_client_facts e w w1 p c Hi Hs Hc)
      as (c1 & Hc1 & Hk1 & Hl1 & Hcalls1 & Hw1 & Hr1).
    destruct (IH w1 c1 (step_inv e w w1 Hi Hs) Hr Hc1)
      as (c' & Hc' & Hk & Hl & Hcalls & Hw & Hrd).
    exists c'. split; [done|]. split; [congruence|].
    split. { intros H. apply Hl, Hl1, H. }
    split.
    { intros [H1 H2]%orb_false_elim. by rewrite (Hcalls H2), (Hcalls1 H1). }
    split.
    + intros Hn. destruct (Hw1 Hn) as [Hn1 ->]. destruct (Hw Hn1) as [? ->].
      done.
    + intros Hn. destruct (Hr1 Hn) as [Hn1 ->]. destruct (Hrd Hn1) as [? ->].
      done.
Qed.

Lemma announcements_length es w w' :
  run es w = Done w' →
  length (announcements es w) = length (filter is_submission es).
Proof.
  revert w. induction es as [|e es IH]; intros w; [done|]. simpl.
  intros (w1 & Hs & Hr)%outcome_bind_Done. rewrite Hs, length_app, (IH w1 Hr).
  destruct e as [ok q now|q [msg|] now|q ok]; try done.
  destruct (step_read_alloc q (Some msg) now w w1 Hs) as [cq Hq].
  rewrite (announced_read q msg now w cq Hq).
  rewrite filter_cons_True by done. done.
Qed.

Lemma run_stream_grows es w w' p c :
  inv w → run es w = Done w' → heap w !! p = Some c →
  ∃ c' extra, heap w' !! p = Some c' ∧ stream c' = stream c ++ extra.
Proof.
  revert w c. induction es as [|e es IH]; intros w c Hi; simpl.
  - intros [= <-] Hc. exists c, []. by rewrite app_nil_r.
  - intros (w1 & Hs & Hr)%outcome_bind_Done Hc.
    destruct (step_frame e w w1 p c Hi Hs Hc) as (c1 & Hc1 & _ & _ & Hm1 & Hn1).
    destruct (IH w1 c1 (step_inv e w w1 Hi Hs) Hr Hc1) as (c' & ex & Hc' & Hex).
    destruct (decide (member p w1)) as [Hm|Hn].
    + destruct (Hm1 Hm) as [_ Hs1]. exists c', (announced e w ++ ex).
      by rewrite Hex, Hs1, app_assoc.
    + rewrite (Hn1 Hn) in Hex. by exists c', ex.
Qed.

(** X7.  Once the write pump of a connection has returned, it takes no
    further turn: in every run that follows, nothing more is written to the
    connection and nothing is taken from its queue. *)
Theorem returned_writePump_is_silent es w w' p c :
  inv w → heap w !! p = Some c → p ∉ writers w → run es w = Done w' →
  existsb (is_write p) es = false ∧
  ∃ c', heap w' !! p = Some c' ∧ (p ∉ writers w') ∧
    calls (conn c') = calls (conn c) ∧
    buf (send c) `prefix_of` buf (send c').
Proof.
  intros Hi Hc Hn Hrun.
  destruct (run_client_facts es w w' p c Hi Hrun Hc)
    as (c' & Hc' & _ & _ & Hcalls & Hw & _).
  destruct (Hw Hn) as [Hn' Hes]. split; [done|].
  exists c'. do 2 (split; [done|]). split; [by apply Hcalls|].
  destruct (run_stream_grows es w w' p c Hi Hrun Hc) as (c'' & extra & Hc'' & Hex).
  assert (c'' = c') as -> by congruence.
  exists extra. unfold stream, taken in Hex.
  rewrite (Hcalls Hes), <- app_assoc in Hex. by apply app_inv_head in Hex.
Qed.

(** X8.  After a failed read the read pump of a connection has asked for its
    removal and returned: the connection is not a member, and in every run
    that follows the pump takes no further turn, so the connection submits
    nothing more and is never unregistered a second time by its pump. *)
Theorem failed_readPump_stops p now w w1 es w2 :
  inv w → step (Read p None now) w = Done w1 → run es w1 = Done w2 →
  ¬ member p w1 ∧
  existsb (is_read p) es = false ∧
  (p ∉ readers w2) ∧ ¬ member p w2 ∧
  ∀ r t, step (Read p r t) w2 = Blocks.
Proof.
  intros Hi Hs Hrun.
  destruct (step_read_alloc p None now w w1 Hs) as [c Hc].
  pose proof (step_inv _ w w1 Hi Hs) as Hi1.
  destruct (step_frame _ w w1 p c Hi Hs Hc) as (c1 & Hc1 & _).
  assert (Hn1 : ¬ member p w1).
  { intros [b Hm]. assert (clients w1 !! p = None) as Hnone; [|congruence].
    pose proof (step_read_running p None now w w1 Hs) as Hrd0.
    simpl in Hs. rewrite decide_True in Hs by done.
    rewrite (deref_Some p w c Hc) in Hs. simpl in Hs.
    apply outcome_bind_Done in Hs as (wa & Hu & Hs).
    apply outcome_bind_Done in Hs as (ca & _ & [= <-]). simpl.
    apply hub_unregister_not_member in Hu. unfold member in Hu.
    destruct (clients wa !! p); [|done]. destruct Hu. by eexists. }
  split; [done|].
  destruct (run_client_facts es w1 w2 p c1 Hi1 Hrun Hc1)
    as (c2 & Hc2 & _ & _ & _ & _ & Hrd).
  destruct (Hrd (step_read_failure_stops p now w w1 Hs)) as [Hn2 Hes].
  split; [done|]. split; [done|]. split.
  - destruct (run_frame es w1 w2 p c1 Hi1 Hrun Hc1) as (? & _ & _ & _ & _ & Hnm).
    by destruct (Hnm Hn1).
  - intros r t. simpl. by rewrite decide_False.
Qed.

(* ===================================================================== *)
(** ** Stalled consumers *)
(* ===================================================================== *)

(** X9.  A connection whose write pump takes no turn is evicted as soon as
    more messages have been broadcast than its queue has room for: if the
    run contains no turn of the pump of [p] and more submissions than free
    slots in the queue of [p], then [p] is not a member at its end. *)
Theorem stalled_consumer_is_evicted es w w' p c :
  inv w → heap w !! p = Some c →
  (length (buf (send c)) ≤ capacity (send c))%nat →
  existsb (is_write p) es = false →
  (capacity (send c)
   < length (buf (send c)) + length (filter is_submission es))%nat →
  run es w = Done w' →
  ¬ member p w'.
Proof.
  intros Hi Hc Hlen Hes Hcount Hrun Hm.
  destruct (run_frame es w w' p c Hi Hrun Hc) as (c' & Hc' & _ & _ & Hst & _).
  destruct (Hst Hm) as [_ Hstream].
  destruct (run_client_facts es w w' p c Hi Hrun Hc)
    as (c'' & Hc'' & Hcap & Hl & Hcalls & _).
  assert (c'' = c') as -> by congruence.
  unfold stream, taken in Hstream.
  rewrite (Hcalls Hes), <- app_assoc in Hstream.
  apply app_inv_head in Hstream.
  specialize (Hl Hlen). rewrite Hstream, length_app, Hcap in Hl.
  rewrite (announcements_length es w w' Hrun) in Hl. lia.
Qed.

Lemma stalled_consumer_is_evicted_witness : ¬ member 0%nat evicted.
Proof.
  apply (stalled_consumer_is_evicted after_write_failure write_failed evicted
           0%nat (set_conn {| calls := [(JSONFrame {| Username := "Bob";
                                                     Content := "hi";
                                                     Timestamp := 3000000000 |},
                                       false)];
                              conn_closed := true |}
                    (set_send {| buf := []; capacity := 256; closed := false |}
                       alice_one))).
  - apply (step_inv (Write 0%nat false) one_sent); [apply one_sent_inv|].
    vm_compute. reflexivity.
  - vm_compute. reflexivity.
  - simpl. lia.
  - vm_compute. reflexivity.
  - vm_compute. lia.
  - vm_compute. reflexivity.
Defined.

(* ===================================================================== *)
(** ** Names *)
(* ===================================================================== *)

Lemma fallback_named now : fallback now ≠ ""%string.
Proof. unfold fallback. simpl. discriminate. Qed.

Lemma step_named e w w' : inv w → named w → step e w = Done w' → named w'.
Proof.
  intros Hi Hn Hstep p c' Hc'.
  destruct (heap w !! p) as [c|] eqn:Hc.
  - destruct (step_frame e w w' p c Hi Hstep Hc) as (c'' & Hc'' & Hu & _).
    assert (c'' = c') as -> by congruence. rewrite Hu. by apply (Hn p).
  - destruct (step_new e w w' p c' Hi Hstep Hc Hc') as (q & now & _ & _ & -> & _).
    simpl. destruct (String.eqb q "") eqn:E; [apply fallback_named|].
    by apply String.eqb_neq.
Qed.

(** X10.  Every client the server has admitted has a non-empty name: the one
    given in the request, or the fallback. *)
Theorem clients_are_named es w p c :
  run es newHub = Done w → heap w !! p = Some c → username c ≠ ""%string.
Proof.
  intros Hrun. revert p c.
  apply (run_ind named) with (es := es) (w := newHub);
    [|apply newHub_inv|apply newHub_pumps_alloc| |done].
  - intros e w0 w1 Hi _ Hb Hs. by eapply step_named.
  - intros p c H. simpl in H. by rewrite lookup_empty in H.
Qed.

Lemma clients_are_named_witness : username bob ≠ ""%string.
Proof.
  apply (clients_are_named
           [Serve true "Alice" 1000000000; Serve true "Bob" 2000000000]
           alice_bob 1%nat bob).
  - apply alice_bob_run.
  - apply alice_bob_bob.
Defined.

Lemma step_authentic e w w' :
  inv w → authentic w → step e w = Done w' → authentic w'.
Proof.
  intros Hi Ha Hstep p c' m Hc' Hin.
  assert (Hkeep : ∀ q cq, heap w !! q = Some cq →
            ∃ q' cq', heap w' !! q' = Some cq' ∧ username cq = username cq').
  { intros q cq Hq.
    destruct (step_frame e w w' q cq Hi Hstep Hq) as (cq' & Hq' & Hu & _).
    by exists q, cq'. }
  destruct (heap w !! p) as [c|] eqn:Hc.
  - destruct (step_frame e w w' p c Hi Hstep Hc)
      as (c'' & Hc'' & _ & _ & Hm & Hn).
    assert (c'' = c') as -> by congruence.
    assert (m ∈ stream c ∨ m ∈ announced e w) as [Hold|Hnew].
    { destruct (decide (member p w')) as [Hmw|Hnw].
      - destruct (Hm Hmw) as [_ Hs]. rewrite Hs in Hin.
        by apply elem_of_app in Hin.
      - rewrite (Hn Hnw) in Hin. by left. }
    + destruct (Ha p c m Hc Hold) as (q & cq & Hq & Hu).
      destruct (Hkeep q cq Hq) as (q' & cq' & ? & ?). exists q', cq'.
      split; [done|congruence].
    + destruct e as [ok q now|q [msg|] now|q ok]; simpl in Hnew;
        try by apply elem_of_nil in Hnew.
      destruct (heap w !! q) as [cq|] eqn:Hq; [|by apply elem_of_nil in Hnew].
      simpl in Hnew. apply list_elem_of_singleton in Hnew as ->.
      destruct (Hkeep q cq Hq) as (q' & cq' & ? & ?). by exists q', cq'.
  - destruct (step_new e w w' p c' Hi Hstep Hc Hc') as (q & now & _ & _ & -> & _).
    unfold stream, taken in Hin. simpl in Hin. by apply elem_of_nil in Hin.
Qed.

(** X11.  In every world the server reaches, every message that ever entered
    a queue (whether it is still queued or was taken by the write pump)
    carries as [Username] the name of a client the server admitted: no
    message bears an identity that a client made up. *)
Theorem queued_messages_are_authentic es w p c m :
  run es newHub = Done w → heap w !! p = Some c → m ∈ stream c →
  ∃ q cq, heap w !! q = Some cq ∧ Username m = username cq.
Proof.
  intros Hrun. revert p c m.
  apply (run_ind authentic) with (es := es) (w := newHub);
    [|apply newHub_inv|apply newHub_pumps_alloc| |done].
  - intros e w0 w1 Hi _ Hb Hs. by eapply step_authentic.
  - intros p c m H. simpl in H. by rewrite lookup_empty in H.
Qed.

Lemma queued_messages_are_authentic_witness :
  ∃ q cq, heap saturated !! q = Some cq ∧
          Username {| Username := "Bob"; Content := "hi";
                      Timestamp := 3000000000 |} = username cq.
Proof.
  destruct (heap saturated !! 0%nat) as [c|] eqn:Hc; [|by vm_compute in Hc].
  apply (queued_messages_are_authentic
           ([Serve true "Alice" 1000000000; Serve true "Bob" 2000000000]
            ++ chatter 256) saturated 0%nat c).
  - rewrite run_app, alice_bob_run. apply saturated_run.
  - exact Hc.
  - assert (stream <$> heap saturated !! 0%nat
            = Some (replicate 256 {| Username := "Bob"; Content := "hi";
                                     Timestamp := 3000000000 |})) as Hs
      by (vm_compute; reflexivity).
    rewrite Hc in Hs. injection Hs as ->. by left.
Defined.

(* ===================================================================== *)
(** ** Departures *)
(* ===================================================================== *)

Lemma alice_unregistered_step :
  step (Read 0%nat None 3000000000) alice_bob = Done alice_unregistered.
Proof. vm_compute. reflexivity. Qed.

Lemma alice_closed_step :
  step (Write 0%nat true) alice_unregistered = Done alice_closed.
Proof. vm_compute. reflexivity. Qed.

Lemma after_alice_left_step :
  step (Read 1%nat (Some hi) 4000000000) alice_closed = Done after_alice_left.
Proof. vm_compute. reflexivity. Qed.

Lemma after_alice_left_run :
  run [Serve true "Alice" 1000000000; Serve true "Bob" 2000000000;
       Read 0%nat None 3000000000; Write 0%nat true;
       Read 1%nat (Some hi) 4000000000] newHub
  = Done after_alice_left.
Proof. vm_compute. reflexivity. Qed.

Lemma alice_closed_inv : inv alice_closed.
Proof.
  apply (step_inv _ _ _ (step_inv _ _ _ alice_bob_inv alice_unregistered_step)
           alice_closed_step).
Qed.

Lemma close_message_is_last_witness :
  ∃ c l, heap after_alice_left !! 0%nat = Some c ∧
    calls (conn c) = l ++ [(CloseFrame, true)] ∧ Forall good_call l ∧
    closed (send c) = true ∧ conn_closed (conn c) = true ∧
    (0%nat ∉ writers after_alice_left) ∧ ¬ member 0%nat after_alice_left.
Proof.
  destruct (heap after_alice_left !! 0%nat) as [c|] eqn:Hc;
    [|by vm_compute in Hc].
  destruct (close_message_is_last _ after_alice_left 0%nat c true
              after_alice_left_run Hc) as (l & H).
  - assert (calls ∘ conn <$> heap after_alice_left !! 0%nat
            = Some [(CloseFrame, true)]) as Hk by (vm_compute; reflexivity).
    rewrite Hc in Hk. injection Hk as Hk. simpl in Hk. rewrite Hk. by left.
  - by exists c, l.
Defined.

Lemma failed_readPump_stops_witness :
  ¬ member 0%nat alice_unregistered ∧
  (0%nat ∉ readers after_alice_left) ∧ ¬ member 0%nat after_alice_left ∧
  ∀ r t, step (Read 0%nat r t) after_alice_left = Blocks.
Proof.
  destruct (failed_readPump_stops 0%nat 3000000000 alice_bob
              alice_unregistered
              [Write 0%nat true; Read 1%nat (Some hi) 4000000000]
              after_alice_left) as (? & _ & ? & ? & ?).
  - apply alice_bob_inv.
  - apply alice_unregistered_step.
  - vm_compute. reflexivity.
  - done.
Defined.

Lemma returned_writePump_is_silent_witness :
  ∃ c c', heap alice_closed !! 0%nat = Some c ∧
    heap after_alice_left !! 0%nat = Some c' ∧
    (0%nat ∉ writers after_alice_left) ∧
    calls (conn c') = calls (conn c) ∧
    buf (send c) `prefix_of` buf (send c').
Proof.
  destruct (heap alice_closed !! 0%nat) as [c|] eqn:Hc; [|by vm_compute in Hc].
  destruct (returned_writePump_is_silent
              [Read 1%nat (Some hi) 4000000000] alice_closed after_alice_left
              0%nat c) as (_ & c' & ? & ? & ? & ?).
  - apply alice_closed_inv.
  - exact Hc.
  - assert (bool_decide (0%nat ∈ writers alice_closed) = false) as H
      by (vm_compute; reflexivity).
    by apply bool_decide_eq_false in H.
  - rewrite run_singleton. apply after_alice_left_step.
  - by exists c, c'.
Defined.

(* ===================================================================== *)
(** ** More on the hub loop *)
(* ===================================================================== *)

(** X1.  Go does not fix the order in which [range] visits a map.  The
    fan-out of [Hub.run] does not depend on it: two orders that visit the
    same keys give the same world, or both panic. *)
Theorem broadcast_order_irrelevant m l1 l2 w :
  l1 ≡ₚ l2 → fanout m l1 w = fanout m l2 w.
Proof. apply fanout_Permutation. Qed.

Lemma broadcast_order_irrelevant_witness :
  fanout hi [0%nat; 1%nat] saturated = fanout hi [1%nat; 0%nat] saturated.
Proof. apply broadcast_order_irrelevant, perm_swap. Defined.

(** X2.  No run of the server panics, from the start or from any world it
    has reached: the hub never sends on a closed queue, never closes a
    queue twice, and no goroutine dereferences a missing client. *)
Theorem server_run_never_panics es1 es2 :
  run es1 newHub ≠ Panics ∧
  ∀ w, run es1 newHub = Done w → run es2 w ≠ Panics.
Proof.
  split; [apply server_never_panics|].
  intros w Hrun. destruct (reachable_inv es1 w Hrun). by apply run_no_panic.
Qed.

(** X3.  [Hub.run] does not guard its register case.  If a client whose
    queue is already closed (an evicted or removed one) is registered
    again, the hub's next broadcast panics with a send on a closed channel,
    and so does an unregister of that client, with a second close. *)
Theorem stale_register_panics p w c m :
  heap w !! p = Some c → closed (send c) = true →
  hub_broadcast m (hub_register p w) = Panics ∧
  hub_unregister p (hub_register p w) = Panics.
Proof.
  intros Hc Hcl. split.
  - unfold hub_broadcast.
    assert (p ∈ range_clients (hub_register p w)) as Hin.
    { apply elem_of_range_clients. unfold member. simpl.
      rewrite lookup_insert_eq. by eexists. }
    apply elem_of_Permutation in Hin as [rest Hperm].
    rewrite (fanout_Permutation m _ _ _ Hperm), fanout_cons.
    unfold fan_body. simpl. rewrite lookup_insert_eq.
    by rewrite (fan1_closed m p _ c).
  - unfold hub_unregister. simpl. rewrite lookup_insert_eq. simpl.
    rewrite (deref_Some p _ c) by done. simpl.
    unfold Chan.close. by rewrite Hcl.
Qed.

Lemma stale_register_panics_witness :
  hub_broadcast hi (hub_register 0%nat evicted) = Panics ∧
  hub_unregister 0%nat (hub_register 0%nat evicted) = Panics.
Proof.
  destruct (heap evicted !! 0%nat) as [c|] eqn:Hc; [|by vm_compute in Hc].
  apply (stale_register_panics 0%nat evicted c hi Hc).
  assert (closed ∘ send <$> heap evicted !! 0%nat = Some true) as Hk
    by (vm_compute; reflexivity).
  rewrite Hc in Hk. by injection Hk.
Defined.

Lemma saturated_alice :
  ∃ c, heap saturated !! 0%nat = Some c ∧ closed (send c) = false ∧
       Chan.full (send c) = true.
Proof.
  assert ((λ c, (closed (send c), Chan.full (send c)))
            <$> heap saturated !! 0%nat = Some (false, true)) as Hk
    by (vm_compute; reflexivity).
  destruct (heap saturated !! 0%nat) as [c|]; [|done].
  exists c. by injection Hk.
Qed.

(** X12.  Evicting a member whose queue is full leaves exactly the world that
    unregistering it would: the default branch of the fan-out and the
    unregister case do the same two things, in opposite order. *)
Theorem eviction_is_removal m p w c :
  member p w → heap w !! p = Some c → closed (send c) = false →
  Chan.full (send c) = true →
  fan1 m p w = hub_unregister p w ∧
  ∃ w', fan1 m p w = Done w' ∧ ¬ member p w' ∧
        heap w' !! p = Some (set_send (shut (send c)) c).
Proof.
  intros Hm Hc Ho Hf.
  rewrite (fan1_full m p w c), (hub_unregister_member p w c) by done.
  split; [done|]. eexists. split; [done|]. unfold member. simpl.
  rewrite lookup_delete_eq, lookup_insert_eq. split; [by intros [? ?]|done].
Qed.

Lemma eviction_is_removal_witness :
  fan1 hi 0%nat saturated = hub_unregister 0%nat saturated.
Proof.
  destruct saturated_alice as (c & Hc & Ho & Hf).
  assert (member 0%nat saturated) as Hm.
  { apply saturated_members. compute_done. }
  exact (proj1 (eviction_is_removal hi 0%nat saturated c Hm Hc Ho Hf)).
Defined.

(** X13.  Each accepted request adds exactly one member, at a fresh address,
    and disturbs no client that is already there: members stay members and
    no client object changes, also when the name is already in use. *)
Theorem admission_adds_one_member q now w :
  inv w →
  ¬ member (fresh (dom (heap w))) w ∧
  member (fresh (dom (heap w))) (serveWS true q now w) ∧
  size (clients (serveWS true q now w)) = S (size (clients w)) ∧
  ∀ p c, heap w !! p = Some c →
    heap (serveWS true q now w) !! p = Some c ∧
    (member p (serveWS true q now w) ↔ member p w).
Proof.
  intros Hi.
  assert (Hfresh : clients w !! fresh (dom (heap w)) = None).
  { destruct (clients w !! fresh (dom (heap w))) as [b|] eqn:E; [|done].
    destruct (inv_alloc w Hi (fresh (dom (heap w)))) as [c Hc]; [by exists b|].
    by rewrite fresh_heap_None in Hc. }
  split. { unfold member. rewrite Hfresh. by intros [? ?]. }
  split. { unfold member. simpl. rewrite lookup_insert_eq. by eexists. }
  split. { simpl. by apply map_size_insert_None. }
  intros p c Hc.
  assert (p ≠ fresh (dom (heap w))).
  { intros ->. by rewrite fresh_heap_None in Hc. }
  unfold member. simpl. by rewrite !lookup_insert_ne.
Qed.

Lemma admission_adds_one_member_witness :
  size (clients (serveWS true "Alice" 5000000000 alice_bob))
  = S (size (clients alice_bob)).
Proof.
  apply (admission_adds_one_member "Alice" 5000000000 alice_bob alice_bob_inv).
Defined.

(** X14.  For clock readings from 1970 on, the fallback name is [User]
    followed by the seconds of the clock modulo 1000, so there are at most
    1000 such names and they repeat every 1000 seconds. *)
Theorem fallback_repeats t k :
  0 ≤ t → 0 ≤ k →
  fallback t
  = ("User" ++ NilZero.string_of_int (Z.to_int (Unix t mod 1000)))%string ∧
  0 ≤ Unix t mod 1000 < 1000 ∧
  fallback (t + k * 1000000000000) = fallback t.
Proof.
  intros Ht Hk.
  assert (Hu : 0 ≤ Unix t) by (unfold Unix; by apply Z.div_pos).
  assert (Hrem : ∀ s, 0 ≤ s → fallback s
      = ("User" ++ NilZero.string_of_int (Z.to_int (Unix s mod 1000)))%string).
  { intros s Hs. unfold fallback. rewrite Z.rem_mod_nonneg; [done| |lia].
    unfold Unix. by apply Z.div_pos. }
  split; [by apply Hrem|]. split; [by apply Z.mod_pos_bound|].
  rewrite !Hrem by lia. do 3 f_equal.
  unfold Unix.
  replace (t + k * 1000000000000) with (t + (k * 1000) * 1000000000) by lia.
  rewrite Z.div_add by lia. by rewrite Z.add_mod, Z.mod_mul, Z.add_0_r,
    Z.mod_mod by lia.
Qed.

Lemma fallback_repeats_witness :
  fallback (1700000123000000000 + 1 * 1000000000000)
  = fallback 1700000123000000000.
Proof.
  apply (fallback_repeats 1700000123000000000 1); lia.
Defined.

(** X15.  A decoded submission of a running read pump reaches every member
    whose queue has room, the sender included: each of them gets, at the
    back of its queue, the content stamped with the sender's name and the
    server's clock. *)
Theorem submission_reaches_every_member p x now w c :
  inv w → p ∈ readers w → heap w !! p = Some c →
  ∃ w', step (Read p (Some x) now) w = Done w' ∧
    ∀ q cq, member q w → heap w !! q = Some cq →
      Chan.full (send cq) = false →
      ∃ cq', heap w' !! q = Some cq' ∧ member q w' ∧
        buf (send cq')
        = buf (send cq) ++ [{| Username := username c; Content := Content x;
                               Timestamp := now |}].
Proof.
  intros Hi Hr Hc.
  destruct (hub_broadcast_spec {| Username := username c; Content := Content x;
                                 Timestamp := now |} w Hi)
    as (w' & Hb & _ & _ & Ha & _).
  exists w'. split.
  - simpl. rewrite decide_True by done. rewrite (deref_Some p w c Hc). simpl.
    by rewrite Hb.
  - intros q cq Hm Hq Hf. destruct (Ha q cq Hm Hq Hf) as [H1 H2].
    eexists. split; [done|]. unfold member. by rewrite H1.
Qed.

Lemma submission_reaches_every_member_witness :
  ∃ w', step (Read 0%nat (Some hi) 5000000000) alice_bob = Done w' ∧
    ∀ q cq, member q alice_bob → heap alice_bob !! q = Some cq →
      Chan.full (send cq) = false →
      ∃ cq', heap w' !! q = Some cq' ∧ member q w' ∧
        buf (send cq')
        = buf (send cq) ++ [{| Username := "Alice"; Content := Content hi;
                               Timestamp := 5000000000 |}].
Proof.
  apply (submission_reaches_every_member 0%nat hi 5000000000 alice_bob
           {| conn := {| calls := []; conn_closed := false |};
              username := "Alice"; send := Chan.make 256 |}).
  - apply alice_bob_inv.
  - compute_done.
  - vm_compute. reflexivity.
Defined.

Lemma server_run_never_panics_witness : run (chatter 256) alice_bob ≠ Panics.
Proof.
  apply (proj2 (server_run_never_panics
                  [Serve true "Alice" 1000000000; Serve true "Bob" 2000000000]
                  (chatter 256)) alice_bob alice_bob_run).
Defined.

(* ===================================================================== *)
(** ** The order of the write calls *)
(* ===================================================================== *)

(** What one step does to the queue and to the write calls of an allocated
    client: a step that is no turn of its write pump leaves the calls alone
    and at most appends to the queue; a turn of its write pump takes the
    message at the front of the queue and makes one write call with it, or,
    on a closed and drained queue, makes one call with the close message
    and returns. *)
Lemma step_queue e w w' p c :
  inv w → step e w = Done w' → heap w !! p = Some c →
  ∃ c', heap w' !! p = Some c' ∧
    ((is_write p e = false ∧ calls (conn c') = calls (conn c) ∧
      ∃ ann, buf (send c') = buf (send c) ++ ann) ∨
     (∃ ok m, e = Write p ok ∧ buf (send c) = m :: buf (send c') ∧
        calls (conn c') = calls (conn c) ++ [(JSONFrame m, ok)]) ∨
     (∃ ok, e = Write p ok ∧ buf (send c) = [] ∧ buf (send c') = [] ∧
        calls (conn c') = calls (conn c) ++ [(CloseFrame, ok)] ∧
        p ∉ writers w')).
Proof.
  intros Hi Hstep Hc.
  destruct (step_client e w w' p c Hi Hstep Hc) as (c' & Hc' & _ & _ & Hcs).
  exists c'. split; [done|].
  destruct Hcs as [Hs Hk Hiff|q msg now cq -> _ _ _ _ Hs Hk _
                  |q msg now -> _ _ _ Hs Hk _|now -> Hs Hk _ _
                  |ok m rest -> _ Hbuf Hs Hk _ _
                  |ok -> _ Hbuf _ Hs Hk _ Hnw].
  - destruct (is_write p e) eqn:Hw.
    + destruct e as [| |q ok]; try done. simpl in Hw.
      apply bool_decide_eq_true in Hw as ->.
      pose proof (step_write_running p ok w w' Hstep) as Hpw.
      simpl in Hstep. rewrite decide_True in Hstep by done.
      apply outcome_bind_Done in Hstep as ([w1 rs] & Hwp & [= <-]).
      destruct (buf (send c)) as [|m rest] eqn:Hb.
      * destruct (closed (send c)) eqn:Hcl;
          [|by rewrite (writePump_parked p ok w c) in Hwp].
        destruct (writePump_drained p ok w c) as (c0 & Hw0 & _ & _ & Hk0 & _);
          try done.
        rewrite Hwp in Hw0. injection Hw0 as ->. simpl in Hc'.
        rewrite lookup_insert_eq in Hc'. injection Hc' as <-.
        rewrite Hk in Hk0. exfalso. apply (f_equal length) in Hk0.
        rewrite length_app in Hk0. simpl in Hk0. lia.
      * destruct (writePump_message p ok w c m rest) as (c0 & Hw0 & _ & _ & Hk0 & _);
          try done.
        rewrite Hwp in Hw0.
        assert (heap w1 !! p = Some c0) as Hc0.
        { destruct ok; injection Hw0 as ->; simpl; by rewrite lookup_insert_eq. }
        assert (c' = c0) as -> by congruence. rewrite Hk in Hk0.
        exfalso. apply (f_equal length) in Hk0. rewrite length_app in Hk0.
        simpl in Hk0. lia.
    + left. rewrite Hs, Hk. split; [done|]. split; [done|].
      exists []. by rewrite app_nil_r.
  - left. rewrite Hs, Hk. simpl. do 2 (split; [done|]). by eexists.
  - left. rewrite Hs, Hk. simpl. do 2 (split; [done|]).
    exists []. by rewrite app_nil_r.
  - left. rewrite Hs, Hk. simpl. do 2 (split; [done|]).
    exists []. by rewrite app_nil_r.
  - right. left. exists ok, m. rewrite Hs. simpl. by rewrite Hbuf.
  - right. right. exists ok. rewrite Hs. done.
Qed.

Lemma existsb_false_filter {A} (f : A → bool) (l : list A) :
  existsb f l = false → filter f l = [].
Proof.
  induction l as [|x l IH]; [done|]. simpl.
  intros [Hx Hl]%orb_false_elim.
  rewrite filter_cons_False by (rewrite Hx; exact id). by apply IH.
Qed.

Lemma omap_frames (l : list (Frame * bool)) :
  omap (λ x, frame_message (fst x)) l = omap frame_message l.*1.
Proof.
  induction l as [|[f ok] l IH]; [done|].
  rewrite fmap_cons. cbn [omap list_omap fst]. by rewrite IH.
Qed.

Lemma taken_calls c :
  taken c = omap frame_message (calls (conn c)).*1.
Proof. apply omap_frames. Qed.

Lemma omap_JSONFrame (ms : list Message) :
  omap frame_message (JSONFrame <$> ms) = ms.
Proof.
  induction ms as [|m ms IH]; [done|].
  rewrite fmap_cons. cbn [omap list_omap frame_message]. by rewrite IH.
Qed.

(** The write calls a run adds to a connection: one per turn of its write
    pump; they carry, in order, the messages at the front of the queue
    ([ms]), and the last may be the close message.  What was written
    followed by what is still queued is what was queued before followed by
    what arrived during the run. *)
Lemma run_write_calls es w w' p c :
  inv w → run es w = Done w' → heap w !! p = Some c →
  ∃ c' (ms : list Message) tail extra, heap w' !! p = Some c' ∧
    (calls (conn c')).*1
    = (calls (conn c)).*1 ++ (JSONFrame <$> ms) ++ tail ∧
    (tail = [] ∨ tail = [CloseFrame]) ∧
    (length ms + length tail = length (filter (is_write p) es))%nat ∧
    ms ++ buf (send c') = buf (send c) ++ extra.
Proof.
  revert w c. induction es as [|e es IH]; intros w c Hi; simpl.
  - intros [= <-] Hc. exists c, [], [], []. simpl.
    rewrite !app_nil_r. repeat split; try done. by left.
  - intros (w1 & Hs & Hr)%outcome_bind_Done Hc.
    pose proof (step_inv e w w1 Hi Hs) as Hi1.
    destruct (step_queue e w w1 p c Hi Hs Hc)
      as (c1 & Hc1 & [(Hw & Hk & ann & Hb)
                     |[(ok & m & -> & Hb & Hk)|(ok & -> & Hb & Hb1 & Hk & Hnw)]]).
    + destruct (IH w1 c1 Hi1 Hr Hc1)
        as (c' & ms & tail & extra & Hc' & Hcalls & Htail & Hlen & Hq).
      exists c', ms, tail, (ann ++ extra). split; [done|].
      rewrite Hcalls, Hk. split; [done|]. split; [done|].
      rewrite filter_cons_False by (rewrite Hw; exact id). split; [done|].
      by rewrite Hq, Hb, app_assoc.
    + destruct (IH w1 c1 Hi1 Hr Hc1)
        as (c' & ms & tail & extra & Hc' & Hcalls & Htail & Hlen & Hq).
      exists c', (m :: ms), tail, extra. split; [done|].
      rewrite Hcalls, Hk, fmap_app, <- app_assoc. split; [done|].
      split; [done|].
      rewrite filter_cons_True
        by (simpl; rewrite bool_decide_eq_true_2 by done; exact I).
      simpl. split; [lia|]. by rewrite Hq, Hb.
    + destruct (run_client_facts es w1 w' p c1 Hi1 Hr Hc1)
        as (c' & Hc' & _ & _ & Hcalls & Hw & _).
      destruct (Hw Hnw) as [_ Hes].
      destruct (run_stream_grows es w1 w' p c1 Hi1 Hr Hc1)
        as (c'' & extra & Hc'' & Hex).
      assert (c'' = c') as -> by congruence.
      unfold stream, taken in Hex. rewrite (Hcalls Hes), Hb1, app_nil_r in Hex.
      apply app_inv_head in Hex.
      exists c', [], [CloseFrame], extra. split; [done|].
      rewrite (Hcalls Hes), Hk, fmap_app. split; [done|].
      split; [by right|].
      rewrite filter_cons_True
        by (simpl; rewrite bool_decide_eq_true_2 by done; exact I).
      rewrite (existsb_false_filter _ _ Hes). split; [done|].
      by rewrite Hb, Hex.
Qed.

Lemma app_eq_longer {A} (l1 l2 k1 k2 : list A) :
  l1 ++ l2 = k1 ++ k2 → (length k1 ≤ length l1)%nat →
  ∃ post, l1 = k1 ++ post.
Proof.
  revert l1. induction k1 as [|x k1 IH]; intros l1 Heq Hlen.
  - by exists l1.
  - destruct l1 as [|y l1]; simpl in Hlen; [lia|].
    simpl in Heq. injection Heq as -> Heq.
    destruct (IH l1 Heq) as [post ->]; [lia|]. by exists post.
Qed.

(** C5.  Let the hub receive the submission [x1] of [q1], then anything,
    then the submission [x2] of [q2], and let [p] be a member after both
    fan-outs (it was then a member all along).  At that point the messages
    its pump has taken followed by those in its queue are what they were
    before, then [m1], then what was broadcast in between, then [m2]: [m1]
    entered the queue before [m2].  Whatever happens afterwards ([later],
    which may remove [p] and close its queue): every turn of the write pump
    of [p] made exactly one write call; these calls carry, in order, the
    messages [ms], followed at most by the close message; [ms] followed by
    what is still queued is what was queued followed by later arrivals.  So
    the messages of all write calls are an initial part of the order of
    entry, and once the pump has written [m2] it has written [m1] before
    it.  A running pump with a message queued can take its turn, and the
    turn writes the message at the front. *)
Theorem order_preservation q1 x1 t1 mid q2 x2 t2 later w w2 w3 p c :
  inv w → heap w !! p = Some c →
  run (Read q1 (Some x1) t1 :: mid ++ [Read q2 (Some x2) t2]) w = Done w2 →
  member p w2 →
  run later w2 = Done w3 →
  ∃ c2 c3 c1 u2 between (ms : list Message) tail extra,
    member p w ∧ heap w !! q1 = Some c1 ∧
    heap w2 !! p = Some c2 ∧ heap w3 !! p = Some c3 ∧
    taken c2 ++ buf (send c2)
    = (taken c ++ buf (send c))
      ++ {| Username := username c1; Content := Content x1; Timestamp := t1 |}
      :: between
      ++ [{| Username := u2; Content := Content x2; Timestamp := t2 |}] ∧
    (calls (conn c3)).*1
    = (calls (conn c2)).*1 ++ (JSONFrame <$> ms) ++ tail ∧
    (tail = [] ∨ tail = [CloseFrame]) ∧
    (length ms + length tail = length (filter (is_write p) later))%nat ∧
    ms ++ buf (send c3) = buf (send c2) ++ extra ∧
    taken c3 = taken c2 ++ ms ∧
    taken c3 ++ buf (send c3)
    = (taken c ++ buf (send c))
      ++ {| Username := username c1; Content := Content x1; Timestamp := t1 |}
      :: between
      ++ {| Username := u2; Content := Content x2; Timestamp := t2 |}
      :: extra ∧
    ((length (taken c ++ buf (send c)) + length between + 2
      ≤ length (taken c3))%nat →
     ∃ post,
       taken c3
       = (taken c ++ buf (send c))
         ++ {| Username := username c1; Content := Content x1;
               Timestamp := t1 |}
         :: between
         ++ {| Username := u2; Content := Content x2; Timestamp := t2 |}
         :: post) ∧
    (p ∈ writers w3 → ∀ m rest ok, buf (send c3) = m :: rest →
     ∃ w4 c4, step (Write p ok) w3 = Done w4 ∧ heap w4 !! p = Some c4 ∧
       calls (conn c4) = calls (conn c3) ++ [(JSONFrame m, ok)] ∧
       buf (send c4) = rest).
Proof.
  intros Hi Hc Hrun Hm Hlater.
  destruct (enqueue_order q1 x1 t1 mid q2 x2 t2 w w2 p c Hi Hc Hrun Hm)
    as (c2 & c1 & u2 & between & Hmw & Hc2 & Hc1 & Hentry).
  pose proof (run_inv _ w w2 Hi Hrun) as Hi2.
  destruct (run_write_calls later w2 w3 p c2 Hi2 Hlater Hc2)
    as (c3 & ms & tail & extra & Hc3 & Hcalls & Htail & Hlen & Hq).
  exists c2, c3, c1, u2, between, ms, tail, extra.
  do 9 (split; [done|]).
  assert (Htk : taken c3 = taken c2 ++ ms).
  { rewrite !taken_calls, Hcalls, !omap_app, omap_JSONFrame.
    destruct Htail as [->| ->]; simpl; by rewrite app_nil_r. }
  assert (Hfinal : taken c3 ++ buf (send c3)
    = (taken c ++ buf (send c))
      ++ {| Username := username c1; Content := Content x1; Timestamp := t1 |}
      :: between
      ++ {| Username := u2; Content := Content x2; Timestamp := t2 |}
      :: extra).
  { rewrite Htk, <- app_assoc, Hq, app_assoc, Hentry.
    rewrite <- !app_assoc. simpl. by rewrite <- app_assoc. }
  split; [done|]. split; [done|]. split.
  - intros Hlong.
    destruct (app_eq_longer (taken c3) (buf (send c3))
                ((taken c ++ buf (send c))
                 ++ {| Username := username c1; Content := Content x1;
                       Timestamp := t1 |}
                 :: between
                 ++ [{| Username := u2; Content := Content x2;
                        Timestamp := t2 |}]) extra) as [post Hpost].
    + rewrite Hfinal. rewrite <- !app_assoc. simpl. by rewrite <- app_assoc.
    + rewrite !length_app in *. simpl. rewrite length_app. simpl. lia.
    + exists post. rewrite Hpost. rewrite <- !app_assoc. simpl.
      by rewrite <- app_assoc.
  - intros Hpw m rest ok Hb.
    destruct (writePump_message p ok w3 c3 m rest Hc3 Hb)
      as (c4 & Hw & _ & Hs & Hk & _).
    eexists _, c4. split; [by eapply step_write|].
    split; [destruct ok; simpl; by rewrite lookup_insert_eq|].
    split; [done|]. by rewrite Hs.
Qed.

Lemma conversation_end_run : run bob_leaves conversation = Done conversation_end.
Proof. vm_compute. reflexivity. Qed.

Lemma order_preservation_witness :
  ∃ c2 c3 c1 u2 between (ms : list Message) tail extra,
    member 1%nat alice_bob ∧ heap alice_bob !! 0%nat = Some c1 ∧
    heap conversation !! 1%nat = Some c2 ∧
    heap conversation_end !! 1%nat = Some c3 ∧
    taken c2 ++ buf (send c2)
    = (taken bob ++ buf (send bob))
      ++ {| Username := username c1; Content := Content hi;
            Timestamp := 5000000000 |}
      :: between
      ++ [{| Username := u2; Content := Content hi;
             Timestamp := 7000000000 |}] ∧
    (calls (conn c3)).*1
    = (calls (conn c2)).*1 ++ (JSONFrame <$> ms) ++ tail ∧
    (tail = [] ∨ tail = [CloseFrame]) ∧
    (length ms + length tail = length (filter (is_write 1%nat) bob_leaves))%nat ∧
    ms ++ buf (send c3) = buf (send c2) ++ extra ∧
    taken c3 = taken c2 ++ ms ∧
    taken c3 ++ buf (send c3)
    = (taken bob ++ buf (send bob))
      ++ {| Username := username c1; Content := Content hi;
            Timestamp := 5000000000 |}
      :: between
      ++ {| Username := u2; Content := Content hi; Timestamp := 7000000000 |}
      :: extra ∧
    ((length (taken bob ++ buf (send bob)) + length between + 2
      ≤ length (taken c3))%nat →
     ∃ post,
       taken c3
       = (taken bob ++ buf (send bob))
         ++ {| Username := username c1; Content := Content hi;
               Timestamp := 5000000000 |}
         :: between
         ++ {| Username := u2; Content := Content hi;
               Timestamp := 7000000000 |}
         :: post) ∧
    (1%nat ∈ writers conversation_end →
     ∀ m rest ok, buf (send c3) = m :: rest →
     ∃ w4 c4, step (Write 1%nat ok) conversation_end = Done w4 ∧
       heap w4 !! 1%nat = Some c4 ∧
       calls (conn c4) = calls (conn c3) ++ [(JSONFrame m, ok)] ∧
       buf (send c4) = rest).
Proof.
  apply (order_preservation 0%nat hi 5000000000
           [Write 1%nat true; Read 1%nat (Some hi) 6000000000]
           0%nat hi 7000000000 bob_leaves
           alice_bob conversation conversation_end 1%nat bob).
  - apply alice_bob_inv.
  - apply alice_bob_bob.
  - apply conversation_run.
  - apply conversation_bob.
  - apply conversation_end_run.
Defined.

(** Bob's connection at the end: Alice's first message, his own, Alice's
    second, then the close message, in this order. *)
Example conversation_end_calls :
  calls ∘ conn <$> heap conversation_end !! 1%nat
  = Some [ (JSONFrame {| Username := "Alice"; Content := "hi";
                         Timestamp := 5000000000 |}, true);
           (JSONFrame {| Username := "Bob"; Content := "hi";
                         Timestamp := 6000000000 |}, true);
           (JSONFrame {| Username := "Alice"; Content := "hi";
                         Timestamp := 7000000000 |}, true);
           (CloseFrame, true) ].
Proof. vm_compute. reflexivity. Qed.
